(** * kcp_mobile: the session-pool proxy (package mobilekcp)

    A shallow embedding of the pooled proxy: configuration defaults, mode
    presets and validation, session creation, the controller
    (StartProxy / StopProxy / IsRunning), the accept loop with its
    round-robin dispatch and lazy slot repair, and the per-connection
    forwarder (handleClient).

    External collaborators (encoding/json, net, kcp-go, smux) are not part
    of the package.  Their results enter the model as explicit inputs: the
    JSON decoder as a function, the outcome of every listen / dial /
    handshake / accept as an argument of the operation that performs it,
    and the resources they hand out as handles recorded in a [World]. *)

From Stdlib Require Import ZArith Lia DecimalString.
From stdpp Require Import strings list gmap.

Local Open Scope Z_scope.
#[local] Set Warnings "-clear-no-such-hyp".

(** ** Go's [int] *)

(** [int] is taken at 64 bits; arithmetic wraps around in two's complement. *)
Definition int_bits : Z := 64.
Definition max_int : Z := 2 ^ (int_bits - 1) - 1.
Definition min_int : Z := - 2 ^ (int_bits - 1).
Definition wrap_int (z : Z) : Z :=
  (z + 2 ^ (int_bits - 1)) mod 2 ^ int_bits - 2 ^ (int_bits - 1).

(** [%d] of fmt. *)
Definition fmt_d (z : Z) : string := NilZero.string_of_int (Z.to_int z).

(** ** Config *)

Record Config := mkConfig {
  LocalAddr : string;
  RemoteAddr : string;
  Mode : string;
  Conn : Z;
  MTU : Z;
  SndWnd : Z;
  RcvWnd : Z;
  DataShard : Z;
  ParityShard : Z;
  AckNodelay : bool;
  SockBuf : Z;
  SmuxVer : Z;
  SmuxBuf : Z;
  FrameSize : Z;
  StreamBuf : Z;
  KeepAlive : Z;
  NoDelay : Z;
  Interval : Z;
  Resend : Z;
  NoCongestion : Z;
  NoComp : bool
}.

(** The zero value [var config Config]. *)
Definition zeroConfig : Config :=
  mkConfig "" "" "" 0 0 0 0 0 0 false 0 0 0 0 0 0 0 0 0 0 false.

Definition maxSmuxVer : Z := 2.
Definition VERSION : string := "MOBILE-1.0".

(** [if v <= 0 { v = d }] *)
Definition default_int (v d : Z) : Z := if v <=? 0 then d else v.

(** [if s == "" { s = d }] *)
Definition default_str (s d : string) : string :=
  if String.eqb s "" then d else s.

(** Every test of [applyDefaults] reads and writes one field only, so the
    sequence of assignments is the record built field by field. *)
Definition applyDefaults (config : Config) : Config :=
  {| LocalAddr := default_str (LocalAddr config) "127.0.0.1:1080";
     RemoteAddr := RemoteAddr config;
     Mode := default_str (Mode config) "fast";
     Conn := default_int (Conn config) 1;
     MTU := default_int (MTU config) 1350;
     SndWnd := default_int (SndWnd config) 128;
     RcvWnd := default_int (RcvWnd config) 512;
     DataShard := default_int (DataShard config) 10;
     ParityShard := default_int (ParityShard config) 3;
     AckNodelay := AckNodelay config;
     SockBuf := default_int (SockBuf config) 4194304;
     SmuxVer := default_int (SmuxVer config) 1;
     SmuxBuf := default_int (SmuxBuf config) 4194304;
     FrameSize := default_int (FrameSize config) 4096;
     StreamBuf := default_int (StreamBuf config) 2097152;
     KeepAlive := default_int (KeepAlive config) 10;
     NoDelay := NoDelay config;
     Interval := Interval config;
     Resend := Resend config;
     NoCongestion := NoCongestion config;
     NoComp := true |}.

(** The [switch config.Mode]: the four values assigned by the chosen case. *)
Definition modeParams (mode : string) : Z * Z * Z * Z :=
  if String.eqb mode "normal" then (0, 40, 2, 1)
  else if String.eqb mode "fast" then (0, 30, 2, 1)
  else if String.eqb mode "fast2" then (1, 20, 2, 1)
  else if String.eqb mode "fast3" then (1, 10, 2, 1)
  else (0, 30, 2, 1).

Definition applyMode (config : Config) : Config :=
  let '(nodelay, interval, resend, nc) := modeParams (Mode config) in
  {| LocalAddr := LocalAddr config;
     RemoteAddr := RemoteAddr config;
     Mode := Mode config;
     Conn := Conn config;
     MTU := MTU config;
     SndWnd := SndWnd config;
     RcvWnd := RcvWnd config;
     DataShard := DataShard config;
     ParityShard := ParityShard config;
     AckNodelay := AckNodelay config;
     SockBuf := SockBuf config;
     SmuxVer := SmuxVer config;
     SmuxBuf := SmuxBuf config;
     FrameSize := FrameSize config;
     StreamBuf := StreamBuf config;
     KeepAlive := KeepAlive config;
     NoDelay := nodelay;
     Interval := interval;
     Resend := resend;
     NoCongestion := nc;
     NoComp := NoComp config |}.

(** The four tuning numbers of a configuration. *)
Definition tuning (config : Config) : Z * Z * Z * Z :=
  (NoDelay config, Interval config, Resend config, NoCongestion config).

(** [error] is [option string]: [None] is [nil], [Some m] has [Error() = m]. *)
Definition validateConfig (config : Config) : option string :=
  if String.eqb (RemoteAddr config) "" then Some "remoteaddr is required"
  else if Conn config <=? 0 then Some "conn must be greater than 0"
  else if SmuxVer config >? maxSmuxVer
       then Some ("unsupported smux version: " +:+ fmt_d (SmuxVer config))
  else None.

(** ** The world outside the package

    Listeners, transport connections, sessions and accepted connections are
    handles.  The world records which of them are still open; a handle is
    never reused. *)

Record KcpOptions := mkKcpOptions {
  kcp_stream_mode : bool;
  kcp_write_delay : bool;
  kcp_nodelay : Z * Z * Z * Z;
  kcp_window : Z * Z;
  kcp_mtu : Z;
  kcp_ack_nodelay : bool;
  kcp_read_buffer : Z;
  kcp_write_buffer : Z
}.

Record SmuxConfig := mkSmuxConfig {
  Version : Z;
  MaxReceiveBuffer : Z;
  MaxStreamBuffer : Z;
  MaxFrameSize : Z;
  KeepAliveInterval : Z
}.

Record World := mkWorld {
  next_handle : nat;                 (* the next unused handle *)
  listeners : gset nat;              (* listeners bound and not closed *)
  kcp_conns : gset nat;              (* transport connections open and not owned by a session *)
  sessions_all : gset nat;           (* every session ever established *)
  sessions_open : gset nat;          (* sessions whose IsClosed() is false *)
  conns_open : gset nat;             (* accepted local connections not closed *)
  session_opts : gmap nat (KcpOptions * SmuxConfig)
}.

Definition emptyWorld : World := mkWorld 0 ∅ ∅ ∅ ∅ ∅ ∅.

(** [session.IsClosed()] *)
Definition IsClosed (s : nat) (w : World) : bool :=
  bool_decide (s ∉ sessions_open w).

(** [net.Listen] succeeded: a fresh listener. *)
Definition bind_listener (w : World) : World :=
  mkWorld (S (next_handle w)) ({[next_handle w]} ∪ listeners w) (kcp_conns w)
          (sessions_all w) (sessions_open w) (conns_open w) (session_opts w).

(** [listener.Close()] *)
Definition close_listener (l : nat) (w : World) : World :=
  mkWorld (next_handle w) (listeners w ∖ {[l]}) (kcp_conns w)
          (sessions_all w) (sessions_open w) (conns_open w) (session_opts w).

(** [kcp.DialWithOptions] succeeded: a fresh transport connection. *)
Definition dial_kcp (w : World) : World :=
  mkWorld (S (next_handle w)) (listeners w) ({[next_handle w]} ∪ kcp_conns w)
          (sessions_all w) (sessions_open w) (conns_open w) (session_opts w).

(** [kcpConn.Close()] *)
Definition close_kcp (c : nat) (w : World) : World :=
  mkWorld (next_handle w) (listeners w) (kcp_conns w ∖ {[c]})
          (sessions_all w) (sessions_open w) (conns_open w) (session_opts w).

(** [smux.Client(kcpConn, smuxConfig)] succeeded: the session takes the
    transport connection over and is known by its handle. *)
Definition establish (c : nat) (opts : KcpOptions * SmuxConfig) (w : World) : World :=
  mkWorld (next_handle w) (listeners w) (kcp_conns w ∖ {[c]})
          ({[c]} ∪ sessions_all w) ({[c]} ∪ sessions_open w) (conns_open w)
          (<[c := opts]> (session_opts w)).

(** [session.Close()], and also the session dying on its own (the remote
    side closes it, the keep-alive times out). *)
Definition close_session (s : nat) (w : World) : World :=
  mkWorld (next_handle w) (listeners w) (kcp_conns w)
          (sessions_all w) (sessions_open w ∖ {[s]}) (conns_open w) (session_opts w).

(** [listener.Accept()] returned a connection. *)
Definition accept_conn (w : World) : World :=
  mkWorld (S (next_handle w)) (listeners w) (kcp_conns w)
          (sessions_all w) (sessions_open w) ({[next_handle w]} ∪ conns_open w)
          (session_opts w).

(** [conn.Close()] *)
Definition close_conn (c : nat) (w : World) : World :=
  mkWorld (next_handle w) (listeners w) (kcp_conns w)
          (sessions_all w) (sessions_open w) (conns_open w ∖ {[c]}) (session_opts w).

(** ** createSession *)

(** What the three fallible calls of [createSession] do this time. *)
Inductive CreateOutcome :=
| DialFails (err : string)      (* kcp.DialWithOptions returns an error *)
| VerifyFails (err : string)    (* smux.VerifyConfig returns an error *)
| ClientFails (err : string)    (* smux.Client returns an error *)
| Established.                  (* all three succeed *)

(** The setters called on the transport connection. *)
Definition kcpOptions (config : Config) : KcpOptions :=
  {| kcp_stream_mode := true;
     kcp_write_delay := false;
     kcp_nodelay := (NoDelay config, Interval config, Resend config, NoCongestion config);
     kcp_window := (SndWnd config, RcvWnd config);
     kcp_mtu := MTU config;
     kcp_ack_nodelay := AckNodelay config;
     kcp_read_buffer := SockBuf config;
     kcp_write_buffer := SockBuf config |}.

(** [time.Second], in nanoseconds. *)
Definition time_Second : Z := 1000000000.

(** The fields written into [smux.DefaultConfig()]. *)
Definition smuxConfig (config : Config) : SmuxConfig :=
  {| Version := SmuxVer config;
     MaxReceiveBuffer := SmuxBuf config;
     MaxStreamBuffer := StreamBuf config;
     MaxFrameSize := FrameSize config;
     KeepAliveInterval := wrap_int (KeepAlive config * time_Second) |}.

(** Returns the session or the error.  A transport connection that was
    dialled is closed again on both later error paths. *)
Definition createSession (config : Config) (o : CreateOutcome) (w : World)
  : World * (nat + string) :=
  match o with
  | DialFails e => (w, inr e)
  | VerifyFails e =>
      let kcpConn := next_handle w in
      (close_kcp kcpConn (dial_kcp w), inr e)
  | ClientFails e =>
      let kcpConn := next_handle w in
      (close_kcp kcpConn (dial_kcp w), inr e)
  | Established =>
      let kcpConn := next_handle w in
      (establish kcpConn (kcpOptions config, smuxConfig config) (dial_kcp w),
       inl kcpConn)
  end.

(** ** The controller *)

(** [stopChan]: nil, made, or closed. *)
Inductive Chan := ChanNil | ChanOpen | ChanClosed.

(** The package-level variables (all guarded by [proxyMu]), the world, and
    the goroutines started so far. *)
Record State := mkState {
  proxyListener : option nat;
  proxySessions : list (option nat);
  proxyRunning : bool;
  proxyConfig : option Config;
  stopChan : Chan;
  world : World;
  acceptLoops : nat;                 (* [go acceptLoop()] *)
  forwarders : list (nat * nat)      (* [go handleClient(conn, session)] *)
}.

Definition initState : State :=
  mkState None [] false None ChanNil emptyWorld 0%nat [].

Definition set_world (w : World) (st : State) : State :=
  mkState (proxyListener st) (proxySessions st) (proxyRunning st)
          (proxyConfig st) (stopChan st) w (acceptLoops st) (forwarders st).

(** The collaborators [StartProxy] calls: the JSON decoder applied to the
    zero [Config], the error of [net.Listen] ([None] when it binds), and
    the outcome of [createSession] for each slot. *)
Record Extern := mkExtern {
  json_Unmarshal : string -> Config + string;
  net_Listen : string -> option string;
  dial : nat -> CreateOutcome
}.

(** The loop [for i := 0; i < config.Conn; i++], with [n] iterations left.
    Returns the error that ended it early, if any. *)
Fixpoint populate (config : Config) (outcome : nat -> CreateOutcome)
    (n i : nat) (pool : list (option nat)) (w : World)
  : World * list (option nat) * option string :=
  match n with
  | O => (w, pool, None)
  | S n' =>
      match createSession config (outcome i) w with
      | (w', inr e) => (w', pool, Some e)
      | (w', inl session) =>
          populate config outcome n' (S i) (<[i := Some session]> pool) w'
      end
  end.

Definition StartProxy (configJson : string) (ext : Extern) (st : State)
  : State * string :=
  if proxyRunning st then (st, "Proxy already running")
  else
    match json_Unmarshal ext configJson with
    | inr e => (st, "Config Error: " +:+ e)
    | inl config0 =>
        let config := applyMode (applyDefaults config0) in
        match validateConfig config with
        | Some e => (st, "Validate Error: " +:+ e)
        | None =>
            match net_Listen ext (LocalAddr config) with
            | Some e =>
                (mkState None (proxySessions st) (proxyRunning st)
                         (proxyConfig st) (stopChan st) (world st)
                         (acceptLoops st) (forwarders st),
                 "Listen Error: " +:+ e)
            | None =>
                let l := next_handle (world st) in
                let size := Z.to_nat (Conn config) in
                match populate config (dial ext) size 0
                               (replicate size None) (bind_listener (world st)) with
                | (w, pool, Some e) =>
                    (mkState (Some l) pool (proxyRunning st) (proxyConfig st)
                             (stopChan st) (close_listener l w)
                             (acceptLoops st) (forwarders st),
                     "Session Error: " +:+ e)
                | (w, pool, None) =>
                    (mkState (Some l) pool true (Some config) ChanOpen w
                             (S (acceptLoops st)) (forwarders st),
                     "")
                end
            end
        end
    end.

(** [close(ch)] panics on a nil or closed channel. *)
Definition close_chan (ch : Chan) : option Chan :=
  match ch with
  | ChanOpen => Some ChanClosed
  | ChanNil | ChanClosed => None
  end.

(** [for _, session := range proxySessions { if session != nil { session.Close() } }] *)
Definition close_all (pool : list (option nat)) (w : World) : World :=
  foldl (fun w slot => match slot with
                       | Some session => close_session session w
                       | None => w
                       end) w pool.

(** [None] is a run-time panic. *)
Definition StopProxy (st : State) : option State :=
  if negb (proxyRunning st) then Some st
  else
    match close_chan (stopChan st) with
    | None => None
    | Some ch =>
        let w1 := match proxyListener st with
                  | Some l => close_listener l (world st)
                  | None => world st
                  end in
        Some (mkState None [] false None ch (close_all (proxySessions st) w1)
                      (acceptLoops st) (forwarders st))
    end.

Definition IsRunning (st : State) : bool := proxyRunning st.

Definition GetVersion : string := VERSION.

(** ** acceptLoop *)

(** Where the goroutine running [acceptLoop] stands; [rr] is its local
    round-robin counter. *)
Inductive LoopPc :=
| LSelect (rr : Z)                  (* at the [select] that opens the loop body *)
| LAccept (rr : Z)                  (* about to call [proxyListener.Accept()] *)
| LBlocked (rr : Z) (l : nat)       (* inside [Accept] on listener [l] *)
| LLocking (rr : Z) (conn : nat)    (* holds [conn], about to take [proxyMu] *)
| LReturned.                        (* [acceptLoop] has returned *)

Inductive AcceptResult :=
| Accepted
| AcceptError (err : string).

(** One connection that reached slot selection: the slot it was given and
    the session its forwarder was started with ([None]: the connection was
    closed because the repair failed). *)
Record Dispatch := mkDispatch {
  d_conn : nat;
  d_slot : Z;
  d_session : option nat
}.

(** [session == nil || session.IsClosed()] *)
Definition slot_dead (slot : option nat) (w : World) : bool :=
  match slot with
  | None => true
  | Some session => IsClosed session w
  end.

Definition spawn_forwarder (conn session : nat) (st : State) : State :=
  mkState (proxyListener st) (proxySessions st) (proxyRunning st)
          (proxyConfig st) (stopChan st) (world st) (acceptLoops st)
          (forwarders st ++ [(conn, session)]).

Definition set_slot (idx : nat) (session : nat) (st : State) : State :=
  mkState (proxyListener st) (<[idx := Some session]> (proxySessions st))
          (proxyRunning st) (proxyConfig st) (stopChan st) (world st)
          (acceptLoops st) (forwarders st).

(** The part of the loop body that runs with [proxyMu] held, up to and
    including [go handleClient(conn, session)].  [None] is a run-time panic
    (division by zero, index out of range, nil dereference). *)
Definition dispatch (conn : nat) (o : CreateOutcome) (rr : Z) (st : State)
  : option (State * LoopPc * option Dispatch) :=
  if negb (proxyRunning st) then
    Some (set_world (close_conn conn (world st)) st, LReturned, None)
  else
    let len := Z.of_nat (length (proxySessions st)) in
    if len =? 0 then None
    else
      let idx := Z.rem rr len in
      let rr' := wrap_int (rr + 1) in
      if idx <? 0 then None
      else
        match proxySessions st !! Z.to_nat idx with
        | None => None
        | Some slot =>
            if slot_dead slot (world st) then
              match proxyConfig st with
              | None => None
              | Some config =>
                  match createSession config o (world st) with
                  | (w, inr _) =>
                      Some (set_world (close_conn conn w) st, LSelect rr',
                            Some (mkDispatch conn idx None))
                  | (w, inl newSession) =>
                      Some (spawn_forwarder conn newSession
                              (set_slot (Z.to_nat idx) newSession (set_world w st)),
                            LSelect rr',
                            Some (mkDispatch conn idx (Some newSession)))
                  end
              end
            else
              match slot with
              | Some session =>
                  Some (spawn_forwarder conn session st, LSelect rr',
                        Some (mkDispatch conn idx (Some session)))
              | None => None
              end
        end.

(** One atomic step of the loop.  [r] is what [Accept] returns if the step
    is the return of [Accept]; [o] is what [createSession] does if the step
    repairs a slot.  [Accept] on a closed listener returns an error. *)
Definition loop_step (r : AcceptResult) (o : CreateOutcome) (pc : LoopPc)
    (st : State) : option (State * LoopPc * option Dispatch) :=
  match pc with
  | LSelect rr =>
      match stopChan st with
      | ChanClosed => Some (st, LReturned, None)
      | _ => Some (st, LAccept rr, None)
      end
  | LAccept rr =>
      match proxyListener st with
      | None => None
      | Some l => Some (st, LBlocked rr l, None)
      end
  | LBlocked rr l =>
      match r with
      | Accepted =>
          if decide (l ∈ listeners (world st)) then
            Some (set_world (accept_conn (world st)) st,
                  LLocking rr (next_handle (world st)), None)
          else
            match stopChan st with
            | ChanClosed => Some (st, LReturned, None)
            | _ => Some (st, LSelect rr, None)
            end
      | AcceptError _ =>
          match stopChan st with
          | ChanClosed => Some (st, LReturned, None)
          | _ => Some (st, LSelect rr, None)
          end
      end
  | LLocking rr conn => dispatch conn o rr st
  | LReturned => Some (st, LReturned, None)
  end.

(** ** One run of the proxy: the accept loop against its environment *)

Inductive Event :=
| EvLoop (r : AcceptResult) (o : CreateOutcome)   (* the loop takes a step *)
| EvSessionDies (s : nat)                         (* a session closes on its own *)
| EvStop.                                         (* the host calls StopProxy *)

Record System := mkSystem {
  sys_state : State;
  sys_loop : LoopPc;
  sys_log : list Dispatch            (* connections dispatched, oldest first *)
}.

Definition log_add (d : option Dispatch) (log : list Dispatch) : list Dispatch :=
  match d with
  | Some x => log ++ [x]
  | None => log
  end.

(** [None]: the process died of a panic. *)
Definition sys_step (ev : Event) (sys : System) : option System :=
  match ev with
  | EvLoop r o =>
      match loop_step r o (sys_loop sys) (sys_state sys) with
      | Some (st, pc, d) => Some (mkSystem st pc (log_add d (sys_log sys)))
      | None => None
      end
  | EvSessionDies s =>
      Some (mkSystem (set_world (close_session s (world (sys_state sys))) (sys_state sys))
                     (sys_loop sys) (sys_log sys))
  | EvStop =>
      match StopProxy (sys_state sys) with
      | Some st => Some (mkSystem st (sys_loop sys) (sys_log sys))
      | None => None
      end
  end.

Fixpoint run (evs : list Event) (sys : System) : option System :=
  match evs with
  | [] => Some sys
  | ev :: evs' =>
      match sys_step ev sys with
      | Some sys' => run evs' sys'
      | None => None
      end
  end.

(** The system right after a [StartProxy] that returned [""]: the fresh
    accept loop with [rr := 0]. *)
Definition started (st : State) : System := mkSystem st (LSelect 0) [].

(** The events of one loop iteration that accepts a connection. *)
Definition iteration (o : CreateOutcome) : list Event :=
  [EvLoop Accepted o; EvLoop Accepted o; EvLoop Accepted o; EvLoop Accepted o].

(** ** Two accept loops side by side

    Every successful [StartProxy] runs [go acceptLoop()], and a loop reads
    [stopChan], [proxyListener] and [proxyRunning] from the package
    variables each time it needs them.  A loop of an earlier run that has
    not returned yet therefore runs beside the loop of the current run, on
    the same state; each keeps its own local [rr]. *)
Record Loops := mkLoops {
  lp_state : State;
  lp_old : LoopPc;                   (* the loop of the earlier run *)
  lp_new : LoopPc;                   (* the loop of the current run *)
  lp_log : list Dispatch             (* connections dispatched, oldest first *)
}.

(** The system as the loop that takes the next step sees it. *)
Definition view (old : bool) (t : Loops) : System :=
  mkSystem (lp_state t) (if old then lp_old t else lp_new t) (lp_log t).

Definition put (old : bool) (t : Loops) (sys : System) : Loops :=
  if old then mkLoops (sys_state sys) (sys_loop sys) (lp_new t) (sys_log sys)
  else mkLoops (sys_state sys) (lp_old t) (sys_loop sys) (sys_log sys).

(** One event; for [EvLoop] the flag says which loop takes the step. *)
Definition step_two (x : bool * Event) (t : Loops) : option Loops :=
  match sys_step x.2 (view x.1 t) with
  | Some sys' => Some (put x.1 t sys')
  | None => None
  end.

Fixpoint run_two (sched : list (bool * Event)) (t : Loops) : option Loops :=
  match sched with
  | [] => Some t
  | x :: sched' =>
      match step_two x t with
      | Some t' => run_two sched' t'
      | None => None
      end
  end.

(** The loop of the earlier run comes back from [Accept] and takes a
    connection, the loop of the current run takes the next one, the loop of
    the earlier run the third. *)
Definition after_restart (o : CreateOutcome) : list (bool * Event) :=
  [(true, EvLoop Accepted o)]
  ++ map (pair true) (iteration o)
  ++ map (pair false) (iteration o)
  ++ map (pair true) (iteration o).

(** ** States the package can be in *)

Inductive reachable : State -> Prop :=
| reach_init : reachable initState
| reach_start st configJson ext :
    reachable st -> reachable (StartProxy configJson ext st).1
| reach_stop st st' :
    reachable st -> StopProxy st = Some st' -> reachable st'
| reach_loop st r o pc st' pc' d :
    reachable st -> loop_step r o pc st = Some (st', pc', d) -> reachable st'
| reach_dies st s :
    reachable st -> reachable (set_world (close_session s (world st)) st).

(** ** handleClient: the forwarder of one connection

    Three goroutines: the one running [handleClient] itself, the one
    copying stream to local ([io.Copy(p1, p2)]) and the one copying local
    to stream ([io.Copy(p2, p1)]).  A schedule is the order in which they
    take their steps. *)
Module Forwarder.

Inductive MainPc :=
| M_open              (* about to call [session.OpenStream()] *)
| M_go_down           (* about to start the goroutine p2 -> p1 *)
| M_go_up             (* about to start the goroutine p1 -> p2 *)
| M_wait              (* at [wg.Wait()] *)
| M_close_stream      (* deferred [p2.Close()] *)
| M_close_conn        (* deferred [p1.Close()] *)
| M_returned.

Inductive CopyPc :=
| C_idle              (* not started *)
| C_copy              (* inside [io.Copy] *)
| C_finish            (* [io.Copy] has returned; the close comes next *)
| C_done              (* deferred [wg.Done()] comes next *)
| C_exit.

Record H := mkH {
  is_tcp : bool;            (* [p1] is a [*net.TCPConn] *)
  main : MainPc;
  down : CopyPc;            (* the goroutine p2 -> p1, stream to local *)
  up : CopyPc;              (* the goroutine p1 -> p2, local to stream *)
  wg : nat;                 (* the WaitGroup counter *)
  p1_read_closed : bool;    (* [CloseRead] was called on [p1] *)
  p1_closed : bool;         (* [Close] was called on [p1] *)
  p2_opened : bool;         (* [OpenStream] returned a stream *)
  p2_closed : bool;         (* [Close] was called on [p2] *)
  moved_down : nat;         (* chunks copied stream to local *)
  moved_up : nat            (* chunks copied local to stream *)
}.

Definition init (tcp : bool) : H :=
  mkH tcp M_open C_idle C_idle 0 false false false false 0 0.

Inductive Act :=
| ActMain (open_ok : bool)   (* next statement of [handleClient]; [open_ok]: does OpenStream succeed *)
| ActDown (fin : bool)       (* next step of p2 -> p1; inside io.Copy: it returns, or moves one more chunk *)
| ActUp (fin : bool).        (* next step of p1 -> p2 *)

Definition set_main (m : MainPc) (h : H) : H :=
  mkH (is_tcp h) m (down h) (up h) (wg h) (p1_read_closed h) (p1_closed h)
      (p2_opened h) (p2_closed h) (moved_down h) (moved_up h).

Definition main_step (open_ok : bool) (h : H) : option H :=
  match main h with
  | M_open =>
      if open_ok then
        (* p2 is open, [defer p2.Close()], [wg.Add(2)] *)
        Some (mkH (is_tcp h) M_go_down (down h) (up h) (wg h + 2)
                  (p1_read_closed h) (p1_closed h) true (p2_closed h)
                  (moved_down h) (moved_up h))
      else Some (set_main M_close_conn h)
  | M_go_down =>
      Some (mkH (is_tcp h) M_go_up C_copy (up h) (wg h) (p1_read_closed h)
                (p1_closed h) (p2_opened h) (p2_closed h) (moved_down h) (moved_up h))
  | M_go_up =>
      Some (mkH (is_tcp h) M_wait (down h) C_copy (wg h) (p1_read_closed h)
                (p1_closed h) (p2_opened h) (p2_closed h) (moved_down h) (moved_up h))
  | M_wait =>
      match wg h with
      | O => Some (set_main M_close_stream h)
      | S _ => None
      end
  | M_close_stream =>
      Some (mkH (is_tcp h) M_close_conn (down h) (up h) (wg h) (p1_read_closed h)
                (p1_closed h) (p2_opened h) true (moved_down h) (moved_up h))
  | M_close_conn =>
      Some (mkH (is_tcp h) M_returned (down h) (up h) (wg h) (p1_read_closed h)
                true (p2_opened h) (p2_closed h) (moved_down h) (moved_up h))
  | M_returned => None
  end.

(** [wg.Done()] panics on a zero counter. *)
Definition wg_done (n : nat) : option nat :=
  match n with
  | O => None
  | S n' => Some n'
  end.

Definition down_step (fin : bool) (h : H) : option H :=
  match down h with
  | C_copy =>
      if fin then
        Some (mkH (is_tcp h) (main h) C_finish (up h) (wg h) (p1_read_closed h)
                  (p1_closed h) (p2_opened h) (p2_closed h) (moved_down h) (moved_up h))
      else
        Some (mkH (is_tcp h) (main h) C_copy (up h) (wg h) (p1_read_closed h)
                  (p1_closed h) (p2_opened h) (p2_closed h)
                  (S (moved_down h)) (moved_up h))
  | C_finish =>
      (* [tcpConn.CloseRead()] when [p1] is a TCP connection, nothing otherwise *)
      Some (mkH (is_tcp h) (main h) C_done (up h) (wg h)
                (if is_tcp h then true else p1_read_closed h)
                (p1_closed h) (p2_opened h) (p2_closed h) (moved_down h) (moved_up h))
  | C_done =>
      match wg_done (wg h) with
      | Some n =>
          Some (mkH (is_tcp h) (main h) C_exit (up h) n (p1_read_closed h)
                    (p1_closed h) (p2_opened h) (p2_closed h) (moved_down h) (moved_up h))
      | None => None
      end
  | C_idle | C_exit => None
  end.

Definition up_step (fin : bool) (h : H) : option H :=
  match up h with
  | C_copy =>
      if fin then
        Some (mkH (is_tcp h) (main h) (down h) C_finish (wg h) (p1_read_closed h)
                  (p1_closed h) (p2_opened h) (p2_closed h) (moved_down h) (moved_up h))
      else
        Some (mkH (is_tcp h) (main h) (down h) C_copy (wg h) (p1_read_closed h)
                  (p1_closed h) (p2_opened h) (p2_closed h)
                  (moved_down h) (S (moved_up h)))
  | C_finish =>
      (* [p2.Close()] *)
      Some (mkH (is_tcp h) (main h) (down h) C_done (wg h) (p1_read_closed h)
                (p1_closed h) (p2_opened h) true (moved_down h) (moved_up h))
  | C_done =>
      match wg_done (wg h) with
      | Some n =>
          Some (mkH (is_tcp h) (main h) (down h) C_exit n (p1_read_closed h)
                    (p1_closed h) (p2_opened h) (p2_closed h) (moved_down h) (moved_up h))
      | None => None
      end
  | C_idle | C_exit => None
  end.

(** [None]: the goroutine cannot take a step now (not started, blocked in
    [wg.Wait()], or gone). *)
Definition step (a : Act) (h : H) : option H :=
  match a with
  | ActMain open_ok => main_step open_ok h
  | ActDown fin => down_step fin h
  | ActUp fin => up_step fin h
  end.

Fixpoint exec (sched : list Act) (h : H) : option H :=
  match sched with
  | [] => Some h
  | a :: sched' =>
      match step a h with
      | Some h' => exec sched' h'
      | None => None
      end
  end.

(** A direction has finished when its [io.Copy] has returned. *)
Definition finished (pc : CopyPc) : bool :=
  match pc with
  | C_finish | C_done | C_exit => true
  | C_idle | C_copy => false
  end.

End Forwarder.

(** ** The single-session variant (proxy.go, [Start] / [Stop] / [handleClient])

    The older variant kept in proxy.go has no pool, no running flag and no
    lock: [Start] binds a listener and starts an accept loop, every accepted
    connection dials a transport connection and a session of its own, and
    [handleClient] waits on a channel for the first of its two copies. *)
Module Simple.

Record Config := mkConfig {
  LocalAddr : string;
  RemoteAddr : string;
  Mode : string;
  MTU : Z;
  SndWnd : Z;
  RcvWnd : Z;
  DataShard : Z;
  ParityShard : Z;
  DSCP : Z
}.

(** The package variable [listener], the world, and the accept loops
    started by [go func() { for { ... } }()]. *)
Record State := mkState {
  listener : option nat;
  sworld : World;
  loops : nat
}.

Definition initState : State := mkState None emptyWorld 0%nat.

(** [unmarshal] is [json.Unmarshal] into a zero [Config]; [listen] gives the
    error of [net.Listen], [None] when it binds.  On a listen error the
    variable [listener] has been assigned the nil listener. *)
Definition Start (configJson : string)
    (unmarshal : string -> Config + string) (listen : string -> option string)
    (st : State) : State * string :=
  match unmarshal configJson with
  | inr e => (st, "Config Error: " +:+ e)
  | inl config =>
      match listen (LocalAddr config) with
      | Some e => (mkState None (sworld st) (loops st), "Listen Error: " +:+ e)
      | None =>
          (mkState (Some (next_handle (sworld st))) (bind_listener (sworld st))
                   (S (loops st)),
           "")
      end
  end.

(** [if listener != nil { listener.Close() }] *)
Definition Stop (st : State) : State :=
  match listener st with
  | Some l => mkState (listener st) (close_listener l (sworld st)) (loops st)
  | None => st
  end.

(** *** handleClient

    The calls that tune the transport connection between the dial and
    [smux.Client] ([SetNoDelay], [SetWindowSize], [SetMtu], [SetACKNoDelay],
    [SetWriteDelay], [SetDSCP]) return nothing and take no branch of the
    function; the control state below leaves them out. *)

Inductive MainPc :=
| S_dial              (* about to call [kcp.DialWithOptions] *)
| S_client            (* about to call [smux.Client] *)
| S_open              (* about to call [session.OpenStream()] *)
| S_go_down           (* about to start the goroutine p2 -> p1 *)
| S_go_up             (* about to start the goroutine p1 -> p2 *)
| S_recv              (* at [<-errChan] *)
| S_close_stream      (* deferred [p2.Close()] *)
| S_close_session     (* deferred [session.Close()] *)
| S_close_kcp         (* deferred [kcpConn.Close()] *)
| S_close_conn        (* deferred [p1.Close()] *)
| S_returned.

#[global] Instance MainPc_eq_dec : EqDecision MainPc.
Proof. solve_decision. Defined.

Inductive GoPc :=
| G_idle              (* not started *)
| G_copy              (* inside [io.Copy] *)
| G_send              (* [io.Copy] has returned; [errChan <- err] comes next *)
| G_exit.

Record H := mkH {
  main : MainPc;
  down : GoPc;               (* the goroutine p2 -> p1 *)
  up : GoPc;                 (* the goroutine p1 -> p2 *)
  errChan : nat;             (* values waiting in the channel, capacity 2 *)
  dialled : bool;            (* the dial returned a connection *)
  kcp_closed : bool;         (* [Close] was called on [kcpConn] *)
  has_session : bool;        (* [smux.Client] returned a session *)
  session_closed : bool;     (* [Close] was called on [session] *)
  opened : bool;             (* [OpenStream] returned a stream *)
  p2_closed : bool;          (* [Close] was called on [p2] *)
  p1_closed : bool           (* [Close] was called on [p1] *)
}.

Definition init : H :=
  mkH S_dial G_idle G_idle 0 false false false false false false false.

Inductive Act :=
| ActMain (ok : bool)        (* next statement of [handleClient]; [ok]: does the call succeed *)
| ActDown (fin : bool)       (* next step of p2 -> p1; inside io.Copy: it returns, or goes on *)
| ActUp (fin : bool).        (* next step of p1 -> p2 *)

Definition main_step (ok : bool) (h : H) : option H :=
  match main h with
  | S_dial =>
      Some (mkH (if ok then S_client else S_close_conn) (down h) (up h) (errChan h)
                ok (kcp_closed h) (has_session h) (session_closed h) (opened h)
                (p2_closed h) (p1_closed h))
  | S_client =>
      Some (mkH (if ok then S_open else S_close_kcp) (down h) (up h) (errChan h)
                (dialled h) (kcp_closed h) ok (session_closed h)
                (opened h) (p2_closed h) (p1_closed h))
  | S_open =>
      Some (mkH (if ok then S_go_down else S_close_session) (down h) (up h)
                (errChan h) (dialled h) (kcp_closed h) (has_session h)
                (session_closed h) ok (p2_closed h) (p1_closed h))
  | S_go_down =>
      Some (mkH S_go_up G_copy (up h) (errChan h) (dialled h)
                (kcp_closed h) (has_session h) (session_closed h) (opened h)
                (p2_closed h) (p1_closed h))
  | S_go_up =>
      Some (mkH S_recv (down h) G_copy (errChan h) (dialled h)
                (kcp_closed h) (has_session h) (session_closed h) (opened h)
                (p2_closed h) (p1_closed h))
  | S_recv =>
      match errChan h with
      | O => None
      | S n =>
          Some (mkH S_close_stream (down h) (up h) n (dialled h)
                    (kcp_closed h) (has_session h) (session_closed h) (opened h)
                    (p2_closed h) (p1_closed h))
      end
  | S_close_stream =>
      Some (mkH S_close_session (down h) (up h) (errChan h) (dialled h)
                (kcp_closed h) (has_session h) (session_closed h) (opened h)
                true (p1_closed h))
  | S_close_session =>
      Some (mkH S_close_kcp (down h) (up h) (errChan h) (dialled h)
                (kcp_closed h) (has_session h) true (opened h)
                (p2_closed h) (p1_closed h))
  | S_close_kcp =>
      Some (mkH S_close_conn (down h) (up h) (errChan h) (dialled h)
                true (has_session h) (session_closed h) (opened h)
                (p2_closed h) (p1_closed h))
  | S_close_conn =>
      Some (mkH S_returned (down h) (up h) (errChan h) (dialled h)
                (kcp_closed h) (has_session h) (session_closed h) (opened h)
                (p2_closed h) true)
  | S_returned => None
  end.

(** One step of a copy goroutine at [pc]: the new pc and the new channel
    content.  A send on the full channel blocks. *)
Definition go_step (fin : bool) (pc : GoPc) (chan : nat) : option (GoPc * nat) :=
  match pc with
  | G_copy => Some (if fin then G_send else G_copy, chan)
  | G_send => if (chan <? 2)%nat then Some (G_exit, S chan) else None
  | G_idle | G_exit => None
  end.

(** [None]: the goroutine cannot take a step now. *)
Definition step (a : Act) (h : H) : option H :=
  match a with
  | ActMain ok => main_step ok h
  | ActDown fin =>
      match go_step fin (down h) (errChan h) with
      | Some (pc, n) =>
          Some (mkH (main h) pc (up h) n (dialled h) (kcp_closed h)
                    (has_session h) (session_closed h) (opened h) (p2_closed h)
                    (p1_closed h))
      | None => None
      end
  | ActUp fin =>
      match go_step fin (up h) (errChan h) with
      | Some (pc, n) =>
          Some (mkH (main h) (down h) pc n (dialled h) (kcp_closed h)
                    (has_session h) (session_closed h) (opened h) (p2_closed h)
                    (p1_closed h))
      | None => None
      end
  end.

Fixpoint exec (sched : list Act) (h : H) : option H :=
  match sched with
  | [] => Some h
  | a :: sched' =>
      match step a h with
      | Some h' => exec sched' h'
      | None => None
      end
  end.

End Simple.

(** * Vocabulary of the properties, and concrete inputs *)

(** A configuration with mode [m] and junk in the four tuning fields. *)
Definition with_mode (m : string) : Config :=
  mkConfig "" "1.2.3.4:4000" m 0 0 0 0 0 0 false 0 0 0 0 0 0 7 7 7 7 false.

(** Every handle in use is below [next_handle], and an open session is a
    session. *)
Record world_ok (w : World) : Prop := mkWorldOk {
  handles_below :
    forall h, h ∈ listeners w ∪ kcp_conns w ∪ sessions_all w ∪ conns_open w ->
              (h < next_handle w)%nat;
  open_sessions_known : sessions_open w ⊆ sessions_all w
}.

(** The double quote, and JSON texts written with it. *)
Definition dq : string := String (Ascii.ascii_of_nat 34) EmptyString.

Definition json_key (k : string) : string := dq +:+ k +:+ dq +:+ ":".
Definition json_str (v : string) : string := dq +:+ v +:+ dq.

(** [{"remoteaddr":"1.2.3.4:4000","conn":N}] *)
Definition json_pool (n : string) : string :=
  "{" +:+ json_key "remoteaddr" +:+ json_str "1.2.3.4:4000" +:+ ","
      +:+ json_key "conn" +:+ n +:+ "}".

Definition config_pool (n : Z) : Config :=
  mkConfig "" "1.2.3.4:4000" "" n 0 0 0 0 0 false 0 0 0 0 0 0 0 0 0 0 false.

(** [{"remoteaddr":"","localaddr":"127.0.0.1:0"}] *)
Definition json_no_remote : string :=
  "{" +:+ json_key "remoteaddr" +:+ json_str "" +:+ ","
      +:+ json_key "localaddr" +:+ json_str "127.0.0.1:0" +:+ "}".

Definition config_no_remote : Config :=
  mkConfig "127.0.0.1:0" "" "" 0 0 0 0 0 0 false 0 0 0 0 0 0 0 0 0 0 false.

(** What [json.Unmarshal] into a zero [Config] gives on the texts above. *)
Definition decode_samples (configJson : string) : Config + string :=
  if String.eqb configJson (json_pool "2") then inl (config_pool 2)
  else if String.eqb configJson (json_pool "3") then inl (config_pool 3)
  else if String.eqb configJson json_no_remote then inl config_no_remote
  else inr "unexpected end of JSON input".

(** Every listen and every session creation succeeds. *)
Definition ext_ok : Extern :=
  mkExtern decode_samples (fun _ => None) (fun _ => Established).

(** The second session creation fails at the dial. *)
Definition ext_second_dial_fails : Extern :=
  mkExtern decode_samples (fun _ => None)
           (fun i => match i with
                     | 1%nat => DialFails "dial udp: lookup failed"
                     | _ => Established
                     end).

Definition leak_state : State :=
  (StartProxy (json_pool "2") ext_second_dial_fails initState).1.

(** The state between a successful [StartProxy] and the next [StopProxy],
    with a pool of [N] slots. *)
Record run_ok (N : nat) (st : State) : Prop := mkRunOk {
  ro_running : proxyRunning st = true;
  ro_chan : stopChan st = ChanOpen;
  ro_config : is_Some (proxyConfig st);
  ro_listener : exists l, proxyListener st = Some l /\ l ∈ listeners (world st);
  ro_size : length (proxySessions st) = N;
  ro_pos : (1 <= N)%nat;
  ro_world : world_ok (world st)
}.

(** The round-robin counter of a loop that has not returned. *)
Definition loop_counter (pc : LoopPc) : option Z :=
  match pc with
  | LSelect rr | LAccept rr | LBlocked rr _ | LLocking rr _ => Some rr
  | LReturned => None
  end.

(** The slots of [n] consecutive dispatches with a pool of [N]. *)
Definition rr_slots (N : nat) (n : nat) : list Z :=
  map (fun k => Z.of_nat k mod Z.of_nat N) (seq 0 n).

(** What one event other than [EvStop] does to a running system: nothing
    that concerns the pool ([eff_quiet]), or one of the three ways a
    dispatch ends. *)
Inductive step_effect (N : nat) (ev : Event) (sys sys' : System) : Prop :=
| eff_quiet :
    sys_log sys' = sys_log sys ->
    loop_counter (sys_loop sys') = loop_counter (sys_loop sys) ->
    proxySessions (sys_state sys') = proxySessions (sys_state sys) ->
    forwarders (sys_state sys') = forwarders (sys_state sys) ->
    sessions_all (world (sys_state sys')) = sessions_all (world (sys_state sys)) ->
    (sessions_open (world (sys_state sys')) = sessions_open (world (sys_state sys)) \/
     exists s, ev = EvSessionDies s /\
               sessions_open (world (sys_state sys'))
               = sessions_open (world (sys_state sys)) ∖ {[s]}) ->
    step_effect N ev sys sys'
| eff_reuse rr conn s :
    sys_loop sys = LLocking rr conn ->
    proxySessions (sys_state sys) !! Z.to_nat (rr mod Z.of_nat N) = Some (Some s) ->
    s ∈ sessions_open (world (sys_state sys)) ->
    sys_state sys' = spawn_forwarder conn s (sys_state sys) ->
    sys_loop sys' = LSelect (wrap_int (rr + 1)) ->
    sys_log sys' = sys_log sys ++ [mkDispatch conn (rr mod Z.of_nat N) (Some s)] ->
    step_effect N ev sys sys'
| eff_repair rr conn slot r w' :
    sys_loop sys = LLocking rr conn ->
    ev = EvLoop r Established ->
    proxySessions (sys_state sys) !! Z.to_nat (rr mod Z.of_nat N) = Some slot ->
    slot_dead slot (world (sys_state sys)) = true ->
    let s := next_handle (world (sys_state sys)) in
    (s ∉ sessions_all (world (sys_state sys))) ->
    sessions_all w' = {[s]} ∪ sessions_all (world (sys_state sys)) ->
    sessions_open w' = {[s]} ∪ sessions_open (world (sys_state sys)) ->
    conns_open w' = conns_open (world (sys_state sys)) ->
    sys_state sys' =
      spawn_forwarder conn s
        (set_slot (Z.to_nat (rr mod Z.of_nat N)) s (set_world w' (sys_state sys))) ->
    sys_loop sys' = LSelect (wrap_int (rr + 1)) ->
    sys_log sys' = sys_log sys ++ [mkDispatch conn (rr mod Z.of_nat N) (Some s)] ->
    step_effect N ev sys sys'
| eff_drop rr conn slot r o w' :
    sys_loop sys = LLocking rr conn ->
    ev = EvLoop r o -> o <> Established ->
    proxySessions (sys_state sys) !! Z.to_nat (rr mod Z.of_nat N) = Some slot ->
    slot_dead slot (world (sys_state sys)) = true ->
    sessions_all w' = sessions_all (world (sys_state sys)) ->
    sessions_open w' = sessions_open (world (sys_state sys)) ->
    conns_open w' = conns_open (world (sys_state sys)) ->
    kcp_conns w' = kcp_conns (world (sys_state sys)) ->
    listeners w' = listeners (world (sys_state sys)) ->
    sys_state sys' = set_world (close_conn conn w') (sys_state sys) ->
    sys_loop sys' = LSelect (wrap_int (rr + 1)) ->
    sys_log sys' = sys_log sys ++ [mkDispatch conn (rr mod Z.of_nat N) None] ->
    step_effect N ev sys sys'.

(** The loop invariant of one run: the counter is the number of
    connections dispatched so far, and they took the slots 0, 1, ...,
    N-1, 0, ... in order. *)
Record rr_inv (N : nat) (sys : System) : Prop := mkRrInv {
  rr_run : run_ok N (sys_state sys);
  rr_counter : loop_counter (sys_loop sys) = Some (Z.of_nat (length (sys_log sys)));
  rr_log : map d_slot (sys_log sys) = rr_slots N (length (sys_log sys))
}.

(** The scenario of the spec: a pool of three (listener 0, sessions 1, 2
    and 3), seven connections.  The session of slot 1 dies before the
    second connection, whose repair fails; the fifth repairs the slot. *)
Definition st3 : State := (StartProxy (json_pool "3") ext_ok initState).1.

Definition seven_dispatches : list Event :=
  iteration Established
  ++ [EvSessionDies 2]
  ++ iteration (DialFails "timeout")
  ++ iteration Established ++ iteration Established ++ iteration Established
  ++ iteration Established ++ iteration Established.

(** The pool of three after the first connection, with the session of
    slot 1 dead and the second connection (handle 5) accepted and waiting
    for the lock. *)
Definition until_second_accept : list Event :=
  iteration Established
  ++ [EvSessionDies 2; EvLoop Accepted Established;
      EvLoop Accepted Established; EvLoop Accepted Established].

Definition before_repair : System :=
  default (started st3) (run until_second_accept (started st3)).

(** Slot [idx] holds the open session [s], and every connection given
    that slot since the log was [base] went to [s]. *)
Record reuse_inv (N : nat) (idx : nat) (s : nat) (base : list Dispatch)
    (sys : System) : Prop := mkReuseInv {
  ru_run : run_ok N (sys_state sys);
  ru_counter : exists rr, loop_counter (sys_loop sys) = Some rr /\ 0 <= rr;
  ru_slot : proxySessions (sys_state sys) !! idx = Some (Some s);
  ru_open : s ∈ sessions_open (world (sys_state sys));
  ru_log : exists later,
      sys_log sys = base ++ later /\
      Forall (fun d => Z.to_nat (d_slot d) = idx -> d_session d = Some s) later
}.

Definition counter_of (pc : LoopPc) : Z := default 0 (loop_counter pc).

Definition three_more : list Event :=
  iteration (DialFails "timeout") ++ iteration (DialFails "timeout")
  ++ iteration (DialFails "timeout").

(** What holds in every state the package can reach: handles are fresh,
    and the stop channel of a running proxy is open. *)
Record state_ok (st : State) : Prop := mkStateOk {
  so_world : world_ok (world st);
  so_chan : proxyRunning st = true -> stopChan st = ChanOpen
}.

(** Every open session with a handle from [n0] on sits in the pool. *)
Definition covers (n0 : nat) (st : State) : Prop :=
  forall h, (n0 <= h)%nat -> h ∈ sessions_open (world st) ->
            exists j, proxySessions st !! j = Some (Some h).

Definition after_seven : System :=
  default (started st3) (run seven_dispatches (started st3)).


(** The integer fields [applyDefaults] looks at, in the order of its tests. *)
Definition int_fields : list (Config -> Z) :=
  [Conn; MTU; SndWnd; RcvWnd; DataShard; ParityShard; SmuxVer; SmuxBuf;
   StreamBuf; FrameSize; KeepAlive; SockBuf].

(** A configuration in which the caller has set every field. *)
Definition config_all_set : Config :=
  mkConfig "0.0.0.0:9000" "10.0.0.1:4000" "fast3" 4 1400 256 1024 20 6 true
           8388608 2 8388608 8192 4194304 15 9 9 9 9 false.

(** [{"remoteaddr":"1.2.3.4:4000","smuxver":3}] decoded. *)
Definition config_smux3 : Config :=
  mkConfig "" "1.2.3.4:4000" "" 0 0 0 0 0 0 false 0 3 0 0 0 0 0 0 0 0 false.

(** A restart after the failed start that leaked session 1: pool of three
    (listener 2, sessions 3, 4, 5), two connections, then [StopProxy]. *)
Definition restarted : State := (StartProxy (json_pool "3") ext_ok leak_state).1.

Definition two_dispatches : list Event :=
  iteration Established ++ iteration Established.

Definition after_restart_run : System :=
  default (started restarted) (run two_dispatches (started restarted)).

Definition stopped_again : State :=
  default restarted (StopProxy (sys_state after_restart_run)).


(** The pool of three after its first connection, with the accept loop
    back inside [Accept] on the listener (handle 0). *)
Definition one_dispatch_then_blocked : list Event :=
  iteration Established
  ++ [EvLoop Accepted Established; EvLoop Accepted Established].

Definition first_run : System :=
  default (started st3) (run one_dispatch_then_blocked (started st3)).

(** [StopProxy] and then [StartProxy] again, while that loop is still
    inside [Accept]. *)
Definition stopped_mid_accept : State :=
  default initState (StopProxy (sys_state first_run)).

Definition second_run : State :=
  (StartProxy (json_pool "3") ext_ok stopped_mid_accept).1.

Module ForwarderSpec.
Import Forwarder.

(** A goroutine that has not exited still owes its [wg.Done()]. *)
Definition pending (pc : CopyPc) : nat :=
  match pc with
  | C_exit => 0
  | _ => 1
  end.

Definition before_spawn_down (m : MainPc) : bool :=
  match m with
  | M_open | M_go_down => true
  | _ => false
  end.

Definition before_spawn_up (m : MainPc) : bool :=
  match m with
  | M_open | M_go_down | M_go_up => true
  | _ => false
  end.

Definition after_wait (m : MainPc) : bool :=
  match m with
  | M_close_stream | M_close_conn | M_returned => true
  | _ => false
  end.

Definition after_stream_close (m : MainPc) : bool :=
  match m with
  | M_close_conn | M_returned => true
  | _ => false
  end.

(** What holds at every point of every schedule. *)
Record inv (h : H) : Prop := mkInv {
  inv_wg : wg h = if p2_opened h then (pending (down h) + pending (up h))%nat else 0%nat;
  inv_unopened :
    p2_opened h = false ->
    down h = C_idle /\ up h = C_idle /\ moved_down h = 0%nat /\ moved_up h = 0%nat /\
    (main h = M_open \/ after_stream_close (main h) = true);
  inv_open : main h = M_open -> p2_opened h = false;
  inv_down_idle : before_spawn_down (main h) = true -> down h = C_idle;
  inv_up_idle : before_spawn_up (main h) = true -> up h = C_idle;
  inv_down_started :
    before_spawn_down (main h) = false -> p2_opened h = true -> down h <> C_idle;
  inv_up_started :
    before_spawn_up (main h) = false -> p2_opened h = true -> up h <> C_idle;
  inv_waited :
    after_wait (main h) = true -> p2_opened h = true ->
    down h = C_exit /\ up h = C_exit;
  inv_conn_closed : p1_closed h = true <-> main h = M_returned;
  inv_stream_closed :
    after_stream_close (main h) = true -> p2_opened h = true -> p2_closed h = true;
  inv_read_closed : p1_read_closed h = true -> finished (down h) = true /\ is_tcp h = true;
  inv_p2_closed : p2_closed h = true -> finished (up h) = true
}.

(** The steps that take a copy goroutine from where it is to its exit,
    its [io.Copy] returning at once. *)
Definition finish_copy (mk : bool -> Act) (pc : CopyPc) : list Act :=
  match pc with
  | C_copy => [mk true; mk true; mk true]
  | C_finish => [mk true; mk true]
  | C_done => [mk true]
  | C_idle | C_exit => []
  end.

(** A schedule that takes the forwarder from where it is to its return. *)
Definition completion (h : H) : list Act :=
  match main h with
  | M_open => [ActMain false; ActMain false]
  | M_go_down =>
      [ActMain true; ActMain true] ++ finish_copy ActDown C_copy
      ++ finish_copy ActUp C_copy ++ [ActMain true; ActMain true; ActMain true]
  | M_go_up =>
      [ActMain true] ++ finish_copy ActDown (down h)
      ++ finish_copy ActUp C_copy ++ [ActMain true; ActMain true; ActMain true]
  | M_wait =>
      finish_copy ActDown (down h) ++ finish_copy ActUp (up h)
      ++ [ActMain true; ActMain true; ActMain true]
  | M_close_stream => [ActMain true; ActMain true]
  | M_close_conn => [ActMain true]
  | M_returned => []
  end.



Definition remote_closed_first : list Act :=
  [ActMain true; ActMain true; ActMain true; ActDown false; ActUp false; ActDown true].

Definition after_remote_closed : H :=
  Eval cbv in default (init true) (exec remote_closed_first (init true)).

End ForwarderSpec.

Module SimpleSpec.
Import Simple.

(** A goroutine that has sent its error on the channel. *)
Definition sent (pc : GoPc) : nat :=
  match pc with
  | G_exit => 1
  | _ => 0
  end.

(** [handleClient] has taken a value from the channel: it is past the
    receive, which it reaches only with a stream. *)
Definition received (h : H) : nat :=
  match main h with
  | S_dial | S_client | S_open | S_go_down | S_go_up | S_recv => 0
  | _ => if opened h then 1 else 0
  end.

(** How far the deferred calls have run: 1 to 4 after [p2.Close()],
    [session.Close()], [kcpConn.Close()], [p1.Close()]. *)
Definition unwound (m : MainPc) : nat :=
  match m with
  | S_close_session => 1
  | S_close_kcp => 2
  | S_close_conn => 3
  | S_returned => 4
  | _ => 0
  end.

Definition is_idle (pc : GoPc) : bool :=
  match pc with
  | G_idle => true
  | _ => false
  end.

(** What the pc says about the three calls that can fail, and about the
    two go statements. *)
Definition set_up_ok (h : H) : bool :=
  match main h with
  | S_dial => negb (dialled h) && negb (has_session h) && negb (opened h)
              && is_idle (down h) && is_idle (up h)
  | S_client => dialled h && negb (has_session h) && negb (opened h)
                && is_idle (down h) && is_idle (up h)
  | S_open => dialled h && has_session h && negb (opened h)
              && is_idle (down h) && is_idle (up h)
  | S_go_down => dialled h && has_session h && opened h
                 && is_idle (down h) && is_idle (up h)
  | S_go_up => dialled h && has_session h && opened h
               && negb (is_idle (down h)) && is_idle (up h)
  | S_recv | S_close_stream =>
      dialled h && has_session h && opened h
      && negb (is_idle (down h)) && negb (is_idle (up h))
  | S_close_session => dialled h && has_session h
  | S_close_kcp => dialled h
  | S_close_conn | S_returned => true
  end
  && implb (opened h) (has_session h) && implb (has_session h) (dialled h)
  && eqb (opened h) (negb (is_idle (down h)) || (match main h with S_go_down => true | _ => false end))
  && implb (negb (is_idle (up h))) (negb (is_idle (down h))).

(** What holds at every point of every schedule, as one boolean over the
    control state. *)
Definition invb (h : H) : bool :=
  (* the channel holds what was sent and not yet received *)
  (errChan h + received h =? sent (down h) + sent (up h))%nat
  && set_up_ok h
  (* the deferred closes, in their order *)
  && eqb (p2_closed h) (opened h && (1 <=? unwound (main h))%nat)
  && eqb (session_closed h) (has_session h && (2 <=? unwound (main h))%nat)
  && eqb (kcp_closed h) (dialled h && (3 <=? unwound (main h))%nat)
  && eqb (p1_closed h) (4 <=? unwound (main h))%nat
  (* never more than the capacity *)
  && (errChan h <=? 2)%nat.

Definition inv (h : H) : Prop := invb h = true.

Definition all_main : list MainPc :=
  [S_dial; S_client; S_open; S_go_down; S_go_up; S_recv; S_close_stream;
   S_close_session; S_close_kcp; S_close_conn; S_returned].

Definition all_go : list GoPc := [G_idle; G_copy; G_send; G_exit].

Definition all_bool : list bool := [true; false].

Definition all_act : list Act :=
  [ActMain true; ActMain false; ActDown true; ActDown false; ActUp true; ActUp false].

(** [P] holds in every control state that satisfies [invb]; the channel
    content ranges over 0, 1, 2. *)
Definition holds_everywhere (P : H -> bool) : bool :=
  forallb (fun m => forallb (fun d => forallb (fun u => forallb (fun n =>
  forallb (fun b1 => forallb (fun b2 => forallb (fun b3 => forallb (fun b4 =>
  forallb (fun b5 => forallb (fun b6 => forallb (fun b7 =>
    let h := mkH m d u n b1 b2 b3 b4 b5 b6 b7 in
    implb (invb h) (P h))
  all_bool) all_bool) all_bool) all_bool) all_bool) all_bool) all_bool)
  [0; 1; 2]%nat) all_go) all_go) all_main.

(** Every step that can be taken leads to a state satisfying [invb]. *)
Definition steps_keep (h : H) : bool :=
  forallb (fun a => match step a h with Some h' => invb h' | None => true end) all_act.

(** A started goroutine that has not exited can take its next step. *)
Definition go_can_step (pc : GoPc) (chan : nat) : bool :=
  match pc with
  | G_copy | G_send => bool_decide (is_Some (go_step true pc chan))
  | G_idle | G_exit => true
  end.

Definition never_blocked (h : H) : bool :=
  go_can_step (down h) (errChan h) && go_can_step (up h) (errChan h).

(** At the return: closed is exactly what was set up, and when the copies
    were started one of them has sent its error. *)
Definition torn_down (h : H) : bool :=
  match main h with
  | S_returned =>
      p1_closed h && eqb (kcp_closed h) (dialled h)
      && eqb (session_closed h) (has_session h) && eqb (p2_closed h) (opened h)
      && implb (opened h) (1 <=? sent (down h) + sent (up h))%nat
      && implb (negb (opened h)) (is_idle (down h) && is_idle (up h))
  | _ => true
  end.

(** The deferred calls run last in, first out: a close has happened only
    when those registered after it have. *)
Definition closes_ordered (h : H) : bool :=
  implb (p1_closed h) (eqb (kcp_closed h) (dialled h))
  && implb (kcp_closed h) (eqb (session_closed h) (has_session h))
  && implb (session_closed h) (eqb (p2_closed h) (opened h))
  && implb (p2_closed h) (1 <=? sent (down h) + sent (up h))%nat.

(** The remote side ends first: [handleClient] returns while the copy
    p1 -> p2 is still running. *)
Definition down_first : list Act :=
  [ActMain true; ActMain true; ActMain true; ActMain true; ActMain true;
   ActUp false; ActDown true; ActDown true;
   ActMain true; ActMain true; ActMain true; ActMain true; ActMain true].

Definition after_down_first : H :=
  Eval cbv in default init (exec down_first init).

(** The stream cannot be opened: no copy is started. *)
Definition open_fails : list Act :=
  [ActMain true; ActMain true; ActMain false;
   ActMain true; ActMain true; ActMain true].

Definition after_open_fails : H :=
  Eval cbv in default init (exec open_fails init).

Definition sample_config : Config :=
  mkConfig "127.0.0.1:8888" "1.2.3.4:4000" "fast3" 1350 1024 1024 10 5 46.

(** What [json.Unmarshal] gives on the texts used below. *)
Definition decode_simple (configJson : string) : Config + string :=
  if String.eqb configJson "good" then inl sample_config
  else inr "invalid character".

Definition listen_ok (addr : string) : option string := None.

Definition listen_busy (addr : string) : option string :=
  Some "address already in use".

Definition started_once : State :=
  (Start "good" decode_simple listen_ok initState).1.

(** Every copy that is still running ends and sends its error. *)
Definition drain (h : H) : list Act :=
  match down h with
  | G_copy => [ActDown true; ActDown true]
  | G_send => [ActDown true]
  | G_idle | G_exit => []
  end ++
  match up h with
  | G_copy => [ActUp true; ActUp true]
  | G_send => [ActUp true]
  | G_idle | G_exit => []
  end.

Definition go_done (pc : GoPc) : bool :=
  match pc with
  | G_idle | G_exit => true
  | G_copy | G_send => false
  end.

Definition drains (h : H) : bool :=
  match exec (drain h) h with
  | Some h' => go_done (down h') && go_done (up h')
               && bool_decide (main h' = main h)
  | None => false
  end.

Definition can_move (h : H) : bool :=
  match main h with
  | S_returned => true
  | _ => existsb (fun a => bool_decide (is_Some (step a h))) all_act
  end.

End SimpleSpec.

(** * Properties *)

(** ** Configuration *)

Lemma default_int_pos v d : 0 < d -> 0 < default_int v d.
Proof. unfold default_int. destruct (Z.leb_spec v 0); lia. Qed.

Lemma applyMode_Conn c : Conn (applyMode c) = Conn c.
Proof. unfold applyMode. by destruct (modeParams (Mode c)) as [[[? ?] ?] ?]. Qed.

Lemma applyMode_RemoteAddr c : RemoteAddr (applyMode c) = RemoteAddr c.
Proof. unfold applyMode. by destruct (modeParams (Mode c)) as [[[? ?] ?] ?]. Qed.

Lemma applyMode_tuning c : tuning (applyMode c) = modeParams (Mode c).
Proof. unfold applyMode. by destruct (modeParams (Mode c)) as [[[? ?] ?] ?]. Qed.

Lemma prepared_Conn c : 1 <= Conn (applyMode (applyDefaults c)).
Proof.
  rewrite applyMode_Conn. simpl.
  pose proof (default_int_pos (Conn c) 1). lia.
Qed.

Lemma modeParams_other m :
  m ≠ "normal" -> m ≠ "fast" -> m ≠ "fast2" -> m ≠ "fast3" ->
  modeParams m = (0, 30, 2, 1).
Proof.
  intros Hn Hf Hf2 Hf3. unfold modeParams.
  repeat match goal with
         | |- context [String.eqb m ?s] =>
             destruct (String.eqb_spec m s); [congruence|]
         end.
  reflexivity.
Qed.

(** C9: the mode presets.  [applyMode] gives "normal" the numbers
    (0,40,2,1), "fast" (0,30,2,1), "fast2" (1,20,2,1), "fast3" (1,10,2,1),
    and every other mode string the numbers of "fast"; an empty mode has
    been replaced by "fast" by [applyDefaults] and gets them too. *)
Theorem applyMode_presets (c : Config) :
  (Mode c = "normal" -> tuning (applyMode c) = (0, 40, 2, 1)) /\
  (Mode c = "fast" -> tuning (applyMode c) = (0, 30, 2, 1)) /\
  (Mode c = "fast2" -> tuning (applyMode c) = (1, 20, 2, 1)) /\
  (Mode c = "fast3" -> tuning (applyMode c) = (1, 10, 2, 1)) /\
  (Mode c ≠ "normal" -> Mode c ≠ "fast" -> Mode c ≠ "fast2" -> Mode c ≠ "fast3" ->
   tuning (applyMode c) = (0, 30, 2, 1)) /\
  (Mode c = "" ->
   Mode (applyDefaults c) = "fast" /\
   tuning (applyMode (applyDefaults c)) = (0, 30, 2, 1)).
Proof.
  rewrite !applyMode_tuning.
  repeat apply conj; try (intros ->; reflexivity).
  - apply modeParams_other.
  - intros Hm. simpl. by rewrite Hm.
Qed.

Lemma applyMode_presets_witness :
  tuning (applyMode (with_mode "normal")) = (0, 40, 2, 1) /\
  tuning (applyMode (with_mode "fast")) = (0, 30, 2, 1) /\
  tuning (applyMode (with_mode "fast2")) = (1, 20, 2, 1) /\
  tuning (applyMode (with_mode "fast3")) = (1, 10, 2, 1) /\
  tuning (applyMode (with_mode "turbo")) = (0, 30, 2, 1) /\
  tuning (applyMode (applyDefaults (with_mode ""))) = (0, 30, 2, 1).
Proof.
  repeat apply conj.
  - exact (proj1 (applyMode_presets (with_mode "normal")) eq_refl).
  - destruct (applyMode_presets (with_mode "fast")) as (_ & Hp & _).
    exact (Hp eq_refl).
  - destruct (applyMode_presets (with_mode "fast2")) as (_ & _ & Hp & _).
    exact (Hp eq_refl).
  - destruct (applyMode_presets (with_mode "fast3")) as (_ & _ & _ & Hp & _).
    exact (Hp eq_refl).
  - destruct (applyMode_presets (with_mode "turbo")) as (_ & _ & _ & _ & Hp & _).
    apply Hp; discriminate.
  - destruct (applyMode_presets (with_mode "")) as (_ & _ & _ & _ & _ & Hp).
    exact (proj2 (Hp eq_refl)).
Defined.

(** C10: the check [Conn <= 0] of [validateConfig] can never fire in
    [StartProxy].  [applyDefaults] has run first and left [Conn >= 1], so
    [validateConfig] does not return "conn must be greater than 0",
    [StartProxy] does not return that validation error for any input
    string, decoder, listener or dial behaviour and state, and the pool
    size handed to the session-creation loop is at least 1. *)
Theorem conn_check_unreachable :
  (forall c, 1 <= Conn (applyMode (applyDefaults c))) /\
  (forall c, validateConfig (applyMode (applyDefaults c))
             <> Some "conn must be greater than 0") /\
  (forall configJson ext st,
      (StartProxy configJson ext st).2
      <> "Validate Error: conn must be greater than 0") /\
  (forall c, (1 <= Z.to_nat (Conn (applyMode (applyDefaults c))))%nat).
Proof.
  assert (Hv : forall c, validateConfig (applyMode (applyDefaults c))
                         <> Some "conn must be greater than 0").
  { intros c. unfold validateConfig.
    pose proof (prepared_Conn c) as Hc.
    destruct (String.eqb _ ""); [discriminate|].
    destruct (Z.leb_spec (Conn (applyMode (applyDefaults c))) 0); [lia|].
    destruct (_ >? _); [|discriminate].
    simpl. discriminate. }
  repeat apply conj.
  - apply prepared_Conn.
  - apply Hv.
  - intros configJson ext st. unfold StartProxy.
    destruct (proxyRunning st); [simpl; discriminate|].
    destruct (json_Unmarshal ext configJson) as [c|e]; [|simpl; discriminate].
    destruct (validateConfig (applyMode (applyDefaults c))) as [e|] eqn:Hval.
    + simpl. intros Heq. injection Heq as Heq.
      cbv [String.append] in Heq. subst e. by apply (Hv c).
    + destruct (net_Listen ext _); [simpl; discriminate|].
      destruct (populate _ _ _ _ _ _) as [[w pool] [e|]]; simpl; discriminate.
  - intros c. pose proof (prepared_Conn c). lia.
Qed.

(** ** The world: handles are fresh *)

Lemma world_ok_empty : world_ok emptyWorld.
Proof. split; simpl; [intros h Hin; set_unfold; tauto | done]. Qed.

Lemma world_ok_open_lt w h :
  world_ok w -> h ∈ sessions_open w -> (h < next_handle w)%nat.
Proof. intros [Hlt Hsub] Hin. apply Hlt. set_solver. Qed.

Lemma world_ok_fresh_session w :
  world_ok w -> next_handle w ∉ sessions_all w.
Proof.
  intros [Hlt _] Hin. specialize (Hlt (next_handle w)).
  assert (next_handle w < next_handle w)%nat; [|lia].
  apply Hlt. set_solver.
Qed.

(** Each world operation keeps [world_ok]: the handle it adds, if any, is
    [next_handle], and the counter moves past it. *)
Ltac world_ok_tac :=
  let Hlt := fresh "Hlt" in
  let Hsub := fresh "Hsub" in
  let h := fresh "h" in
  let Hin := fresh "Hin" in
  intros [Hlt Hsub]; split; simpl;
  [ intros h Hin; specialize (Hlt h); set_unfold; intuition lia
  | first [ exact Hsub
          | let x := fresh "x" in
            set_unfold; intros x ?; specialize (Hsub x); tauto ] ].

Lemma world_ok_bind_listener w : world_ok w -> world_ok (bind_listener w).
Proof. world_ok_tac. Qed.

Lemma world_ok_close_listener l w : world_ok w -> world_ok (close_listener l w).
Proof. world_ok_tac. Qed.

Lemma world_ok_close_session s w : world_ok w -> world_ok (close_session s w).
Proof. world_ok_tac. Qed.

Lemma world_ok_accept_conn w : world_ok w -> world_ok (accept_conn w).
Proof. world_ok_tac. Qed.

Lemma world_ok_close_conn c w : world_ok w -> world_ok (close_conn c w).
Proof. world_ok_tac. Qed.

Lemma world_ok_createSession config o w :
  world_ok w -> world_ok (createSession config o w).1.
Proof. destruct o; simpl; [done | world_ok_tac ..]. Qed.

(** A session that was created: it is the fresh handle, it is open, and
    nothing else in the world changed. *)
Lemma createSession_inl config o w w' s :
  createSession config o w = (w', inl s) ->
  world_ok w ->
  o = Established /\ s = next_handle w /\ next_handle w' = S s /\
  sessions_open w' = {[s]} ∪ sessions_open w /\
  sessions_all w' = {[s]} ∪ sessions_all w /\
  listeners w' = listeners w /\ conns_open w' = conns_open w /\
  kcp_conns w' = kcp_conns w.
Proof.
  intros Hc [Hlt _]. destruct o; simpl in Hc; try discriminate.
  injection Hc as <- <-. simpl. repeat apply conj; try reflexivity.
  apply set_eq. intros h. specialize (Hlt h). set_unfold. intuition lia.
Qed.

(** A session that could not be created: no session appears or
    disappears, and a transport connection that was dialled is closed. *)
Lemma createSession_inr config o w w' e :
  createSession config o w = (w', inr e) ->
  world_ok w ->
  o <> Established /\ (next_handle w <= next_handle w')%nat /\
  sessions_open w' = sessions_open w /\
  sessions_all w' = sessions_all w /\
  listeners w' = listeners w /\ conns_open w' = conns_open w /\
  kcp_conns w' = kcp_conns w.
Proof.
  intros Hc [Hlt _].
  destruct o; simpl in Hc; try discriminate; injection Hc as <- <-; simpl;
    (repeat apply conj; try done; try lia);
    apply set_eq; intros h; specialize (Hlt h); set_unfold; intuition lia.
Qed.

(** ** StartProxy *)

Lemma populate_spec config outcome n :
  forall i pool w w' pool' err,
    populate config outcome n i pool w = (w', pool', err) ->
    world_ok w -> (i + n <= length pool)%nat ->
    world_ok w' /\ length pool' = length pool /\
    listeners w' = listeners w /\ conns_open w' = conns_open w /\
    kcp_conns w' = kcp_conns w /\
    (next_handle w <= next_handle w')%nat /\
    sessions_open w ⊆ sessions_open w' /\
    (forall j, (j < i \/ i + n <= j)%nat -> pool' !! j = pool !! j) /\
    (forall h, h ∈ sessions_all w' ->
               h ∈ sessions_all w \/
               (h ∈ sessions_open w' /\ (next_handle w <= h)%nat /\
                exists j, (i <= j < i + n)%nat /\ pool' !! j = Some (Some h))) /\
    (err = None ->
     next_handle w' = (next_handle w + n)%nat /\
     forall j, (i <= j < i + n)%nat ->
               pool' !! j = Some (Some (next_handle w + (j - i))%nat) /\
               (next_handle w + (j - i))%nat ∈ sessions_open w').
Proof.
  induction n as [|n IH]; intros i pool w w' pool' err Hp Hok Hlen.
  - simpl in Hp. injection Hp as <- <- <-.
    repeat apply conj; try done; try lia.
    + intros h Hh. by left.
    + intros _. split; [lia|]. intros j Hj. lia.
  - simpl in Hp.
    destruct (createSession config (outcome i) w) as [w1 [s|e]] eqn:Hc.
    + pose proof (world_ok_createSession config (outcome i) w Hok) as Hok1.
      rewrite Hc in Hok1. simpl in Hok1.
      destruct (createSession_inl _ _ _ _ _ Hc Hok)
        as (_ & -> & Hn1 & Ho1 & Ha1 & Hl1 & Hco1 & Hk1).
      apply IH in Hp as (Hok' & Hlen' & Hl' & Hco' & Hk' & Hn' & Ho' & Hpool' & Hall' & Hsucc);
        [|done|rewrite length_insert; lia].
      rewrite length_insert in Hlen'.
      assert (Hslot : pool' !! i = Some (Some (next_handle w))).
      { rewrite Hpool' by lia. apply list_lookup_insert_eq. lia. }
      assert (Hfirst : next_handle w ∈ sessions_open w').
      { apply Ho'. rewrite Ho1. apply elem_of_union_l. by apply elem_of_singleton. }
      repeat apply conj; try done; try congruence; try lia.
      * intros h Hh. apply Ho'. rewrite Ho1. by apply elem_of_union_r.
      * intros j Hj. rewrite Hpool' by lia. apply list_lookup_insert_ne. lia.
      * intros h Hh. destruct (Hall' h Hh) as [Hold|(Hopen & Hge & j & Hj & Hjs)].
        -- rewrite Ha1 in Hold. apply elem_of_union in Hold as [Hnew|Hold]; [|by left].
           apply elem_of_singleton in Hnew as ->. right.
           repeat apply conj; [done|lia|]. exists i. split; [lia|done].
        -- right. repeat apply conj; [done|lia|]. exists j. split; [lia|done].
      * intros Herr. destruct (Hsucc Herr) as [Hnext Hslots].
        split; [lia|]. intros j Hj. destruct (decide (j = i)) as [->|Hne].
        -- replace (next_handle w + (i - i))%nat with (next_handle w) by lia.
           split; done.
        -- destruct (Hslots j) as [Hs Hso]; [lia|].
           replace (next_handle w + (j - i))%nat
             with (next_handle w1 + (j - S i))%nat by lia.
           done.
    + injection Hp as <- <- <-.
      pose proof (world_ok_createSession config (outcome i) w Hok) as Hok1.
      rewrite Hc in Hok1. simpl in Hok1.
      destruct (createSession_inr _ _ _ _ _ Hc Hok)
        as (_ & Hn1 & Ho1 & Ha1 & Hl1 & Hco1 & Hk1).
      repeat apply conj; try done; try congruence.
      intros h Hh. left. by rewrite <- Ha1.
Qed.

(** A successful start: the proxy was stopped, the configuration decoded
    and passed validation, and the state now holds the listener, a pool of
    exactly [Conn] fresh open sessions (slot [j] holds the [j]-th handle
    after the listener's), the running flag and an open stop channel. *)
Lemma StartProxy_success configJson ext st st' :
  StartProxy configJson ext st = (st', "") ->
  world_ok (world st) ->
  exists c,
    let config := applyMode (applyDefaults c) in
    let l := next_handle (world st) in
    json_Unmarshal ext configJson = inl c /\
    proxyRunning st = false /\
    proxyRunning st' = true /\ stopChan st' = ChanOpen /\
    proxyConfig st' = Some config /\
    proxyListener st' = Some l /\ l ∈ listeners (world st') /\
    length (proxySessions st') = Z.to_nat (Conn config) /\
    (1 <= length (proxySessions st'))%nat /\
    world_ok (world st') /\
    (forall j, (j < length (proxySessions st'))%nat ->
               proxySessions st' !! j = Some (Some (S l + j)%nat) /\
               (S l + j)%nat ∈ sessions_open (world st')) /\
    (forall h, h ∈ sessions_all (world st') ->
               h ∈ sessions_all (world st) \/
               exists j, proxySessions st' !! j = Some (Some h)) /\
    sessions_open (world st) ⊆ sessions_open (world st') /\
    acceptLoops st' = S (acceptLoops st) /\
    forwarders st' = forwarders st.
Proof.
  unfold StartProxy. intros Hs Hok.
  destruct (proxyRunning st) eqn:Hrun; [discriminate|].
  destruct (json_Unmarshal ext configJson) as [c|e]; [|discriminate].
  exists c. cbv zeta.
  destruct (validateConfig _); [discriminate|].
  destruct (net_Listen ext _); [discriminate|].
  destruct (populate _ _ _ _ _ _) as [[w pool] [e|]] eqn:Hp; [discriminate|].
  injection Hs as <-. simpl.
  pose proof (prepared_Conn c) as Hconn.
  apply populate_spec in Hp
    as (Hok' & Hlen & Hl & Hco & Hk & Hn & Ho & Hpool & Hall & Hsucc);
    [|by apply world_ok_bind_listener|rewrite length_replicate; simpl; lia].
  rewrite length_replicate in Hlen.
  destruct (Hsucc eq_refl) as [Hnext Hslots]. simpl in Hnext, Hslots.
  repeat apply conj; try done; try lia.
  - rewrite Hl. simpl. set_solver.
  - intros j Hj. destruct (Hslots j) as [Hs Hso]; [lia|].
    by rewrite Nat.sub_0_r in Hs, Hso.
  - intros h Hh. destruct (Hall h Hh) as [Hold|(_ & _ & j & _ & Hj)]; eauto.
Qed.

(** C1: all-or-nothing pool creation does not hold.  When [StartProxy]
    fails after the session of slot 0 has been created (the creation for a
    later slot returns an error), it returns its error string, leaves
    [IsRunning() = false] and closes the listener, but the session created
    for slot 0 is still open when it returns, and still sits in
    [proxySessions]: only [proxyListener.Close()] is called on that path. *)
Theorem StartProxy_session_error_leaves_sessions configJson ext st c :
  proxyRunning st = false ->
  world_ok (world st) ->
  json_Unmarshal ext configJson = inl c ->
  validateConfig (applyMode (applyDefaults c)) = None ->
  net_Listen ext (LocalAddr (applyMode (applyDefaults c))) = None ->
  dial ext 0 = Established ->
  forall st' msg,
    StartProxy configJson ext st = (st', msg) ->
    msg <> "" ->
    let l := next_handle (world st) in
    let session0 := S l in
    IsRunning st' = false /\
    (l ∉ listeners (world st')) /\
    (session0 ∉ sessions_all (world st)) /\
    session0 ∈ sessions_open (world st') /\
    proxySessions st' !! 0%nat = Some (Some session0).
Proof.
  intros Hrun Hok Hjson Hval Hlisten Hd0 st' msg Hs Hmsg.
  unfold StartProxy in Hs. rewrite Hrun, Hjson, Hval, Hlisten in Hs.
  pose proof (prepared_Conn c) as Hconn.
  destruct (Z.to_nat (Conn (applyMode (applyDefaults c)))) as [|n] eqn:Hn; [lia|].
  cbn [populate replicate] in Hs. rewrite Hd0 in Hs.
  cbn [createSession] in Hs.
  set (w0 := bind_listener (world st)) in *.
  assert (Hok0 : world_ok w0) by by apply world_ok_bind_listener.
  set (w1 := establish (next_handle w0) _ (dial_kcp w0)) in *.
  assert (Hok1 : world_ok w1).
  { pose proof (world_ok_createSession (applyMode (applyDefaults c)) Established w0 Hok0). done. }
  destruct (populate _ _ n 1 _ w1) as [[w pool] err] eqn:Hp.
  apply populate_spec in Hp
    as (Hok' & Hlen & Hl & Hco & Hk & Hnx & Ho & Hpool & Hall & Hsucc);
    [|done|rewrite length_insert; simpl; rewrite length_replicate; lia].
  destruct err as [e|]; injection Hs as <- <-; [|done].
  cbv zeta. simpl. repeat apply conj.
  - done.
  - set_solver.
  - intros Hin. destruct Hok as [Hlt _].
    specialize (Hlt (S (next_handle (world st)))).
    assert (S (next_handle (world st)) < next_handle (world st))%nat; [|lia].
    apply Hlt. set_solver.
  - apply Ho. subst w1 w0. simpl. set_solver.
  - rewrite Hpool by lia. done.
Qed.

Lemma StartProxy_session_error_leaves_sessions_witness :
  (StartProxy (json_pool "2") ext_second_dial_fails initState).2
    = "Session Error: dial udp: lookup failed" /\
  IsRunning leak_state = false /\
  (0%nat ∉ listeners (world leak_state)) /\
  (1%nat ∉ sessions_all (world initState)) /\
  1%nat ∈ sessions_open (world leak_state) /\
  proxySessions leak_state !! 0%nat = Some (Some 1%nat).
Proof.
  split; [reflexivity|].
  apply (StartProxy_session_error_leaves_sessions
           (json_pool "2") ext_second_dial_fails initState (config_pool 2)
           eq_refl world_ok_empty eq_refl eq_refl eq_refl eq_refl
           leak_state "Session Error: dial udp: lookup failed").
  - reflexivity.
  - discriminate.
Defined.

Lemma StartProxy_validate_error configJson ext st c e :
  proxyRunning st = false ->
  json_Unmarshal ext configJson = inl c ->
  validateConfig (applyMode (applyDefaults c)) = Some e ->
  StartProxy configJson ext st = (st, "Validate Error: " +:+ e).
Proof. intros Hrun Hjson Hval. unfold StartProxy. by rewrite Hrun, Hjson, Hval. Qed.

(** C8: the scenario of the missing remote address.  On the text
    [{"remoteaddr":"","localaddr":"127.0.0.1:0"}], which the decoder turns
    into a [Config] with that local address and an empty remote address,
    [StartProxy] called on a stopped proxy returns the non-empty string
    "Validate Error: remoteaddr is required", which contains "remoteaddr";
    [IsRunning()] stays false and the state, with the world of listeners
    and sessions in it, is exactly what it was. *)
Theorem StartProxy_missing_remoteaddr ext st :
  json_Unmarshal ext json_no_remote = inl config_no_remote ->
  proxyRunning st = false ->
  let r := StartProxy json_no_remote ext st in
  r.2 = "Validate Error: remoteaddr is required" /\
  r.2 <> "" /\
  (exists pre post, r.2 = pre +:+ "remoteaddr" +:+ post) /\
  IsRunning r.1 = false /\
  r.1 = st.
Proof.
  intros Hjson Hrun. cbv zeta.
  rewrite (StartProxy_validate_error _ _ _ _ "remoteaddr is required" Hrun Hjson eq_refl).
  simpl. repeat apply conj; try done.
  by exists "Validate Error: ", " is required".
Qed.

Lemma StartProxy_missing_remoteaddr_witness :
  (StartProxy json_no_remote ext_ok initState).2
    = "Validate Error: remoteaddr is required" /\
  IsRunning (StartProxy json_no_remote ext_ok initState).1 = false /\
  (StartProxy json_no_remote ext_ok initState).1 = initState.
Proof.
  destruct (StartProxy_missing_remoteaddr ext_ok initState eq_refl eq_refl)
    as (Hmsg & _ & _ & Hrun & Hst).
  exact (conj Hmsg (conj Hrun Hst)).
Defined.

(** ** The accept loop while the proxy runs *)

Lemma StartProxy_run_ok configJson ext st st' :
  StartProxy configJson ext st = (st', "") ->
  world_ok (world st) ->
  run_ok (length (proxySessions st')) st'.
Proof.
  intros Hs Hok.
  destruct (StartProxy_success _ _ _ _ Hs Hok)
    as (c & _ & _ & Hrun & Hch & Hcfg & Hl & Hlin & _ & Hpos & Hok' & _).
  split; try done; eauto.
Qed.

Lemma wrap_int_small z : min_int <= z <= max_int -> wrap_int z = z.
Proof.
  unfold wrap_int, min_int, max_int, int_bits. intros Hz.
  rewrite Z.mod_small; lia.
Qed.

(** With the proxy running and a counter that has not wrapped, the locked
    section does not panic: it takes slot [rr mod N], and then does one of
    three things. *)
Lemma dispatch_running N st conn o rr :
  run_ok N st -> 0 <= rr ->
  let idx := Z.to_nat (rr mod Z.of_nat N) in
  let rr' := wrap_int (rr + 1) in
  let slotno := rr mod Z.of_nat N in
  exists slot config,
    proxySessions st !! idx = Some slot /\
    proxyConfig st = Some config /\
    (idx < N)%nat /\
    dispatch conn o rr st =
      if slot_dead slot (world st) then
        match createSession config o (world st) with
        | (w, inr _) =>
            Some (set_world (close_conn conn w) st, LSelect rr',
                  Some (mkDispatch conn slotno None))
        | (w, inl newSession) =>
            Some (spawn_forwarder conn newSession
                    (set_slot idx newSession (set_world w st)),
                  LSelect rr', Some (mkDispatch conn slotno (Some newSession)))
        end
      else
        match slot with
        | Some session =>
            Some (spawn_forwarder conn session st, LSelect rr',
                  Some (mkDispatch conn slotno (Some session)))
        | None => None
        end.
Proof.
  intros [Hrun Hch [config Hcfg] _ Hsize Hpos _] Hrr. cbv zeta.
  assert (Hmod : 0 <= rr mod Z.of_nat N < Z.of_nat N) by (apply Z.mod_pos_bound; lia).
  assert (Hidx : (Z.to_nat (rr mod Z.of_nat N) < length (proxySessions st))%nat) by lia.
  destruct (lookup_lt_is_Some_2 _ _ Hidx) as [slot Hslot].
  exists slot, config. repeat apply conj; try done; try lia.
  unfold dispatch. rewrite Hrun, Hsize, Hcfg. simpl negb. cbv iota.
  destruct (Z.eqb_spec (Z.of_nat N) 0) as [|_]; [lia|].
  rewrite Z.rem_mod_nonneg by lia.
  destruct (Z.ltb_spec (rr mod Z.of_nat N) 0) as [|_]; [lia|].
  rewrite Hslot. reflexivity.
Qed.

Lemma run_ok_set_world N st w :
  run_ok N st -> world_ok w -> listeners w = listeners (world st) ->
  run_ok N (set_world w st).
Proof.
  intros [Hrun Hch Hcfg (l & Hl & Hlin) Hsize Hpos _] Hok Hls.
  split; simpl; try done. exists l. by rewrite Hls.
Qed.

Lemma slot_alive slot w :
  slot_dead slot w = false -> exists s, slot = Some s /\ s ∈ sessions_open w.
Proof.
  destruct slot as [s|]; simpl; [|discriminate]. unfold IsClosed.
  intros Hd. apply bool_decide_eq_false in Hd.
  exists s. split; [done|]. by apply dec_stable.
Qed.

(** Every event but [EvStop] can be taken by a running system whose
    counter has not wrapped; the system keeps running with the same pool
    size, and the event has one of the four effects. *)
Lemma sys_step_effect N sys ev rr :
  run_ok N (sys_state sys) ->
  loop_counter (sys_loop sys) = Some rr -> 0 <= rr ->
  ev <> EvStop ->
  exists sys', sys_step ev sys = Some sys' /\
               run_ok N (sys_state sys') /\
               step_effect N ev sys sys'.
Proof.
  destruct sys as [st pc log]. simpl. intros Hok Hpc Hrr Hev.
  destruct ev as [r o|s|]; [| |done].
  - (* the loop takes a step *)
    destruct pc as [rr0|rr0|rr0 l|rr0 conn|]; simpl in Hpc; try discriminate;
      injection Hpc as ->; simpl.
    + rewrite (ro_chan _ _ Hok). eexists. split; [done|]. split; [done|].
      by apply eff_quiet; simpl; auto.
    + destruct (ro_listener _ _ Hok) as (l & -> & _).
      eexists. split; [done|]. split; [done|]. by apply eff_quiet; simpl; auto.
    + rewrite (ro_chan _ _ Hok).
      destruct r as [|e]; [destruct (decide (l ∈ listeners (world st)))|];
        (eexists; split; [done|]); simpl;
        (split; [|by apply eff_quiet; simpl; auto]); try done.
      apply run_ok_set_world; [done| |done].
      apply world_ok_accept_conn, Hok.
    + destruct (dispatch_running N st conn o rr Hok Hrr)
        as (slot & config & Hslot & Hcfg & Hidx & ->).
      destruct (slot_dead slot (world st)) eqn:Hdead.
      * pose proof (world_ok_createSession config o (world st) (ro_world _ _ Hok)) as Hok1.
        destruct (createSession config o (world st)) as [w' [s|e]] eqn:Hc; simpl in Hok1.
        -- destruct (createSession_inl _ _ _ _ _ Hc (ro_world _ _ Hok))
             as (-> & -> & Hn & Ho & Ha & Hl & Hco & Hk).
           eexists. split; [done|]. simpl. split.
           ++ destruct Hok as [Hrun Hch Hcf (l & Hlst & Hlin) Hsize Hpos Hw].
              split; simpl; try done.
              ** exists l. by rewrite Hl.
              ** by rewrite length_insert.
           ++ eapply eff_repair; simpl; eauto.
              by apply world_ok_fresh_session, Hok.
        -- destruct (createSession_inr _ _ _ _ _ Hc (ro_world _ _ Hok))
             as (Hne & Hn & Ho & Ha & Hl & Hco & Hk).
           eexists. split; [done|]. simpl. split.
           ++ apply run_ok_set_world; [done| |done].
              by apply world_ok_close_conn.
           ++ eapply eff_drop; simpl; eauto.
      * destruct (slot_alive _ _ Hdead) as (s & -> & Hs).
        eexists. split; [done|]. simpl. split.
        -- destruct Hok. by split.
        -- eapply eff_reuse; simpl; eauto.
  - (* a session dies *)
    eexists. split; [done|]. simpl. split.
    + apply run_ok_set_world; [done| |done]. apply world_ok_close_session, Hok.
    + apply eff_quiet; simpl; eauto.
Qed.

(** ** Round robin *)

Lemma rr_slots_S N n :
  rr_slots N (S n) = rr_slots N n ++ [Z.of_nat n mod Z.of_nat N].
Proof. unfold rr_slots. by rewrite seq_S, map_app. Qed.

Lemma rr_inv_extend N sys sys' d :
  run_ok N (sys_state sys') ->
  map d_slot (sys_log sys) = rr_slots N (length (sys_log sys)) ->
  Z.of_nat (length (sys_log sys)) < max_int ->
  sys_loop sys' = LSelect (wrap_int (Z.of_nat (length (sys_log sys)) + 1)) ->
  sys_log sys' = sys_log sys ++ [d] ->
  d_slot d = Z.of_nat (length (sys_log sys)) mod Z.of_nat N ->
  rr_inv N sys' /\ (length (sys_log sys') <= S (length (sys_log sys)))%nat.
Proof.
  intros Hok Hlog Hmax Hpc Hl Hd.
  assert (Hlen : length (sys_log sys') = S (length (sys_log sys)))
    by (rewrite Hl, length_app; simpl; lia).
  split; [|lia]. split; [done| |].
  - rewrite Hpc, Hlen. simpl. f_equal.
    rewrite wrap_int_small; [lia|]. unfold min_int, int_bits. lia.
  - by rewrite Hlen, Hl, map_app, Hlog, rr_slots_S, <- Hd.
Qed.

Lemma rr_inv_step N sys ev :
  rr_inv N sys -> ev <> EvStop ->
  Z.of_nat (length (sys_log sys)) < max_int ->
  exists sys', sys_step ev sys = Some sys' /\ rr_inv N sys' /\
               (length (sys_log sys') <= S (length (sys_log sys)))%nat.
Proof.
  intros [Hok Hc Hlog] Hev Hmax.
  destruct (sys_step_effect N sys ev _ Hok Hc ltac:(lia) Hev) as (sys' & Hs & Hok' & Heff).
  exists sys'. split; [done|].
  destruct Heff as [Hl Hc' _ _ _ _
                   |rr conn s Hpc _ _ _ Hpc' Hl
                   |rr conn slot r w' Hpc _ _ _ s _ _ _ _ _ Hpc' Hl
                   |rr conn slot r o w' Hpc _ _ _ _ _ _ _ _ _ _ Hpc' Hl].
  - split; [|rewrite Hl; lia]. split; [done|congruence|by rewrite Hl].
  - rewrite Hpc in Hc. injection Hc as ->. by eapply rr_inv_extend.
  - rewrite Hpc in Hc. injection Hc as ->. by eapply rr_inv_extend.
  - rewrite Hpc in Hc. injection Hc as ->. by eapply rr_inv_extend.
Qed.

Lemma rr_inv_run N evs :
  forall sys,
    rr_inv N sys -> EvStop ∉ evs ->
    Z.of_nat (length (sys_log sys) + length evs) <= max_int ->
    exists sys', run evs sys = Some sys' /\ rr_inv N sys' /\
                 (length (sys_log sys') <= length (sys_log sys) + length evs)%nat.
Proof.
  induction evs as [|ev evs IH]; intros sys Hinv Hstop Hmax.
  - exists sys. simpl. split; [done|]. split; [done|lia].
  - simpl in Hmax.
    destruct (rr_inv_step N sys ev Hinv) as (sys1 & Hs & Hinv1 & Hlen1).
    { intros ->. apply Hstop. left. }
    { lia. }
    destruct (IH sys1 Hinv1) as (sys' & Hr & Hinv' & Hlen').
    { intros Hin. apply Hstop. by right. }
    { lia. }
    exists sys'. simpl. rewrite Hs. split; [done|]. split; [done|]. simpl. lia.
Qed.

(** X18: round-robin assignment in accept order within one run, when the
    loop started by that run is the only one.  From a running proxy
    with a pool of [N] slots and a fresh accept loop, after any sequence of
    loop steps and session deaths (no [StopProxy]; at most [max_int]
    events, so that the [int] counter cannot wrap), the loop has not
    panicked, the connections dispatched so far were given the slots
    0 mod N, 1 mod N, 2 mod N, ... in the order they were accepted, and the
    counter equals their number: it moved on every dispatch, whether the
    connection was forwarded or dropped by a failed repair. *)
Theorem round_robin_dispatch N st evs :
  run_ok N st ->
  EvStop ∉ evs ->
  Z.of_nat (length evs) <= max_int ->
  exists sys',
    run evs (started st) = Some sys' /\
    map d_slot (sys_log sys') = rr_slots N (length (sys_log sys')) /\
    (forall k d, sys_log sys' !! k = Some d -> d_slot d = Z.of_nat k mod Z.of_nat N) /\
    loop_counter (sys_loop sys') = Some (Z.of_nat (length (sys_log sys'))) /\
    IsRunning (sys_state sys') = true.
Proof.
  intros Hok Hstop Hmax.
  destruct (rr_inv_run N evs (started st)) as (sys' & Hr & [Hok' Hc Hlog] & _);
    [by split|done|simpl; lia|].
  exists sys'. repeat apply conj; try done.
  - intros k d Hk.
    assert (Hm : map d_slot (sys_log sys') !! k = Some (d_slot d))
      by by rewrite list_lookup_fmap, Hk.
    rewrite Hlog in Hm. unfold rr_slots in Hm.
    rewrite list_lookup_fmap in Hm.
    destruct (seq 0 (length (sys_log sys')) !! k) as [k'|] eqn:Hseq; [|done].
    apply lookup_seq in Hseq as [-> _]. simpl in Hm. by injection Hm as ->.
  - apply Hok'.
Qed.

Ltac no_stop :=
  let Hin := fresh "Hin" in
  intros Hin;
  repeat (apply elem_of_cons in Hin as [Hin|Hin]; [discriminate Hin|]);
  by apply elem_of_nil in Hin.

Lemma run_ok_st3 : run_ok 3 st3.
Proof.
  split; try reflexivity; try (by eexists); try lia.
  apply (ro_world _ _ (StartProxy_run_ok (json_pool "3") ext_ok initState st3
                           eq_refl world_ok_empty)).
Qed.

Lemma round_robin_dispatch_witness :
  exists sys',
    run seven_dispatches (started st3) = Some sys' /\
    map d_slot (sys_log sys') = [0; 1; 2; 0; 1; 2; 0] /\
    map d_session (sys_log sys')
    = [Some 1%nat; None; Some 3%nat; Some 1%nat; Some 9%nat; Some 3%nat; Some 1%nat].
Proof.
  destruct (round_robin_dispatch 3 st3 seven_dispatches run_ok_st3)
    as (sys' & Hrun & Hslots & _); [no_stop|by vm_compute|].
  exists sys'. split; [exact Hrun|].
  vm_compute in Hrun. injection Hrun as <-. split; reflexivity.
Defined.

(** ** Repair *)

Lemma run_cons ev evs sys sys1 :
  sys_step ev sys = Some sys1 -> run (ev :: evs) sys = run evs sys1.
Proof. intros Hs. simpl. by rewrite Hs. Qed.

(** One whole iteration of a running loop: the next connection is
    accepted, given its slot, and the loop is back at its [select]. *)
Lemma iteration_dispatches N st rr log o :
  run_ok N st -> 0 <= rr ->
  exists sys' d,
    run (iteration o) (mkSystem st (LSelect rr) log) = Some sys' /\
    run_ok N (sys_state sys') /\
    sys_loop sys' = LSelect (wrap_int (rr + 1)) /\
    sys_log sys' = log ++ [d] /\
    d_conn d = next_handle (world st) /\
    d_slot d = rr mod Z.of_nat N.
Proof.
  intros Hok Hrr.
  destruct (ro_listener _ _ Hok) as (l & Hl & Hlin).
  assert (Hok1 : run_ok N (set_world (accept_conn (world st)) st)).
  { apply run_ok_set_world; [done| |done]. apply world_ok_accept_conn, Hok. }
  destruct (dispatch_running N _ (next_handle (world st)) o rr Hok1 Hrr)
    as (slot & config & Hslot & Hcfg & Hidx & Hd).
  unfold iteration.
  rewrite (run_cons _ _ _ (mkSystem st (LAccept rr) log))
    by (simpl; by rewrite (ro_chan _ _ Hok)).
  rewrite (run_cons _ _ _ (mkSystem st (LBlocked rr l) log))
    by (simpl; by rewrite Hl).
  rewrite (run_cons _ _ _ (mkSystem (set_world (accept_conn (world st)) st)
                                    (LLocking rr (next_handle (world st))) log))
    by (simpl; by destruct (decide (l ∈ listeners (world st)))).
  simpl.
  destruct (sys_step_effect N
              (mkSystem (set_world (accept_conn (world st)) st)
                        (LLocking rr (next_handle (world st))) log)
              (EvLoop Accepted o) rr Hok1 eq_refl Hrr ltac:(done))
    as (sys' & Hs & Hok' & _).
  simpl in Hs. rewrite Hd in Hs |- *.
  destruct (slot_dead slot _); [destruct (createSession _ _ _) as [w [s|e]]|destruct slot];
    try discriminate; injection Hs as <-; eexists _, _; simpl; by repeat apply conj.
Qed.

(** C4: a failed repair costs one connection and nothing else.  When the
    slot chosen for an accepted connection is dead and [createSession]
    fails, the connection is closed, no forwarder is started, the pool is
    what it was (no session appears, none disappears, no transport
    connection stays open), the proxy is still running and the loop is back
    at its [select] with the counter advanced; the next connection is then
    accepted and dispatched to the next slot. *)
Theorem repair_failure_drops_one_connection N sys rr conn slot r o :
  run_ok N (sys_state sys) ->
  sys_loop sys = LLocking rr conn ->
  0 <= rr < max_int ->
  proxySessions (sys_state sys) !! Z.to_nat (rr mod Z.of_nat N) = Some slot ->
  slot_dead slot (world (sys_state sys)) = true ->
  o <> Established ->
  exists sys',
    sys_step (EvLoop r o) sys = Some sys' /\
    (conn ∉ conns_open (world (sys_state sys'))) /\
    forwarders (sys_state sys') = forwarders (sys_state sys) /\
    proxySessions (sys_state sys') = proxySessions (sys_state sys) /\
    sessions_all (world (sys_state sys')) = sessions_all (world (sys_state sys)) /\
    sessions_open (world (sys_state sys')) = sessions_open (world (sys_state sys)) /\
    kcp_conns (world (sys_state sys')) = kcp_conns (world (sys_state sys)) /\
    IsRunning (sys_state sys') = true /\
    run_ok N (sys_state sys') /\
    sys_loop sys' = LSelect (rr + 1) /\
    sys_log sys' = sys_log sys ++ [mkDispatch conn (rr mod Z.of_nat N) None] /\
    forall o', exists sys'' d,
      run (iteration o') sys' = Some sys'' /\
      sys_log sys'' = sys_log sys' ++ [d] /\
      d_conn d = next_handle (world (sys_state sys')) /\
      d_slot d = (rr + 1) mod Z.of_nat N /\
      IsRunning (sys_state sys'') = true.
Proof.
  destruct sys as [st pc log]. simpl. intros Hok -> Hrr Hslot Hdead Ho.
  destruct (dispatch_running N st conn o rr Hok ltac:(lia))
    as (slot' & config & Hslot' & Hcfg & Hidx & Hd).
  rewrite Hslot in Hslot'. injection Hslot' as <-.
  rewrite Hdead in Hd.
  destruct (createSession config o (world st)) as [w' [s|e]] eqn:Hc.
  { destruct (createSession_inl _ _ _ _ _ Hc (ro_world _ _ Hok)) as [-> _]. done. }
  destruct (createSession_inr _ _ _ _ _ Hc (ro_world _ _ Hok))
    as (_ & Hn & Hopen & Hall & Hl & Hco & Hk).
  pose proof (world_ok_createSession config o (world st) (ro_world _ _ Hok)) as Hok1.
  rewrite Hc in Hok1. simpl in Hok1.
  assert (Hw : wrap_int (rr + 1) = rr + 1).
  { apply wrap_int_small. unfold min_int, int_bits. lia. }
  rewrite Hw in Hd.
  assert (Hok' : run_ok N (set_world (close_conn conn w') st)).
  { apply run_ok_set_world; [done| |done]. by apply world_ok_close_conn. }
  unfold sys_step. simpl. rewrite Hd.
  eexists. split; [done|]. simpl.
  repeat apply conj; try done.
  - set_solver.
  - apply Hok.
  - intros o'.
    destruct (iteration_dispatches N _ (rr + 1)
                (log ++ [mkDispatch conn (rr mod Z.of_nat N) None]) o' Hok' ltac:(lia))
      as (sys'' & d & Hr & Hok'' & _ & Hlog & Hdc & Hds).
    exists sys'', d. repeat apply conj; try done. apply Hok''.
Qed.

Lemma run_ok_run N evs st sys' :
  run_ok N st -> EvStop ∉ evs -> Z.of_nat (length evs) <= max_int ->
  run evs (started st) = Some sys' ->
  run_ok N (sys_state sys').
Proof.
  intros Hok Hstop Hmax Hr.
  destruct (rr_inv_run N evs (started st)) as (sys1 & Hr1 & [Hok1 _ _] & _);
    [by split|done|simpl; lia|].
  rewrite Hr in Hr1. by injection Hr1 as ->.
Qed.

Lemma run_ok_before_repair : run_ok 3 (sys_state before_repair).
Proof.
  apply (run_ok_run 3 until_second_accept st3 before_repair run_ok_st3);
    [no_stop|by vm_compute|by vm_compute].
Qed.

Lemma repair_failure_drops_one_connection_witness :
  exists sys',
    sys_step (EvLoop Accepted (DialFails "timeout")) before_repair = Some sys' /\
    (5%nat ∉ conns_open (world (sys_state sys'))) /\
    forwarders (sys_state sys') = [(4%nat, 1%nat)] /\
    proxySessions (sys_state sys') = [Some 1%nat; Some 2%nat; Some 3%nat] /\
    IsRunning (sys_state sys') = true /\
    sys_loop sys' = LSelect 2.
Proof.
  destruct (repair_failure_drops_one_connection
              3 before_repair 1 5%nat (Some 2%nat) Accepted (DialFails "timeout")
              run_ok_before_repair eq_refl)
    as (sys' & Hs & Hconn & Hfw & Hpool & _ & _ & _ & Hrun & _ & Hpc & _);
    [by vm_compute|reflexivity|by vm_compute|discriminate|].
  exists sys'. repeat apply conj; try done.
Defined.

Lemma reuse_inv_step N idx s base sys ev :
  reuse_inv N idx s base sys ->
  ev <> EvStop -> ev <> EvSessionDies s ->
  counter_of (sys_loop sys) < max_int ->
  exists sys', sys_step ev sys = Some sys' /\ reuse_inv N idx s base sys' /\
               counter_of (sys_loop sys') <= counter_of (sys_loop sys) + 1.
Proof.
  intros [Hok (rr & Hc & Hrr) Hslot Hopen (later & Hlog & Hall)] Hev Hdies Hmax.
  destruct (sys_step_effect N sys ev rr Hok Hc Hrr Hev) as (sys' & Hs & Hok' & Heff).
  exists sys'. split; [done|].
  unfold counter_of in *. rewrite Hc in Hmax |- *. simpl in Hmax |- *.
  assert (Hw : wrap_int (rr + 1) = rr + 1).
  { apply wrap_int_small. unfold min_int, int_bits. lia. }
  assert (Hext : forall d,
             (Z.to_nat (d_slot d) = idx -> d_session d = Some s) ->
             sys_log sys' = sys_log sys ++ [d] ->
             exists later', sys_log sys' = base ++ later' /\
               Forall (fun d => Z.to_nat (d_slot d) = idx -> d_session d = Some s) later').
  { intros d Hd Hl. exists (later ++ [d]). split.
    - by rewrite Hl, Hlog, app_assoc.
    - apply Forall_app. split; [done|]. by constructor. }
  destruct Heff as [Hl Hc' Hp _ _ Ho
                   |rr0 conn s0 Hpc Hs0 _ Hst Hpc' Hl
                   |rr0 conn slot r w' Hpc _ Hs0 Hdead s1 _ _ Ho _ Hst Hpc' Hl
                   |rr0 conn slot r o w' Hpc _ _ Hs0 Hdead _ Ho _ _ _ Hst Hpc' Hl].
  - rewrite Hc', Hc. simpl. split; [|lia]. split; try done.
    + exists rr. by rewrite Hc', Hc.
    + by rewrite Hp.
    + destruct Ho as [->|(s' & -> & ->)]; [done|].
      apply elem_of_difference. split; [done|].
      intros Heq%elem_of_singleton. by subst s'.
    + exists later. by rewrite Hl.
  - rewrite Hpc in Hc. injection Hc as ->.
    rewrite Hpc'. simpl. rewrite Hw. split; [|lia]. split; try done.
    + exists (rr + 1). rewrite Hpc'. simpl. rewrite Hw. split; [done|lia].
    + by rewrite Hst.
    + by rewrite Hst.
    + eapply Hext; [|exact Hl]. simpl. intros <-. congruence.
  - rewrite Hpc in Hc. injection Hc as ->.
    assert (Hne : Z.to_nat (rr mod Z.of_nat N) <> idx).
    { intros <-. rewrite Hslot in Hs0. injection Hs0 as <-.
      simpl in Hdead. unfold IsClosed in Hdead.
      by apply bool_decide_eq_true in Hdead. }
    rewrite Hpc'. simpl. rewrite Hw. split; [|lia]. split; try done.
    + exists (rr + 1). rewrite Hpc'. simpl. rewrite Hw. split; [done|lia].
    + rewrite Hst. simpl. by rewrite list_lookup_insert_ne.
    + rewrite Hst. simpl. rewrite Ho. set_solver.
    + eapply Hext; [|exact Hl]. simpl. intros Heq. done.
  - rewrite Hpc in Hc. injection Hc as ->.
    assert (Hne : Z.to_nat (rr mod Z.of_nat N) <> idx).
    { intros <-. rewrite Hslot in Hs0. injection Hs0 as <-.
      simpl in Hdead. unfold IsClosed in Hdead.
      by apply bool_decide_eq_true in Hdead. }
    rewrite Hpc'. simpl. rewrite Hw. split; [|lia]. split; try done.
    + exists (rr + 1). rewrite Hpc'. simpl. rewrite Hw. split; [done|lia].
    + by rewrite Hst.
    + rewrite Hst. simpl. by rewrite Ho.
    + eapply Hext; [|exact Hl]. simpl. intros Heq. done.
Qed.

Lemma reuse_inv_run N idx s base evs :
  forall sys,
    reuse_inv N idx s base sys ->
    EvStop ∉ evs -> EvSessionDies s ∉ evs ->
    counter_of (sys_loop sys) + Z.of_nat (length evs) <= max_int ->
    exists sys', run evs sys = Some sys' /\ reuse_inv N idx s base sys'.
Proof.
  induction evs as [|ev evs IH]; intros sys Hinv Hstop Hdies Hmax.
  - by exists sys.
  - simpl in Hmax.
    destruct (reuse_inv_step N idx s base sys ev Hinv) as (sys1 & Hs & Hinv1 & Hc1).
    { intros ->. apply Hstop. left. }
    { intros ->. apply Hdies. left. }
    { lia. }
    destruct (IH sys1 Hinv1) as (sys' & Hr & Hinv').
    { intros Hin. apply Hstop. by right. }
    { intros Hin. apply Hdies. by right. }
    { lia. }
    exists sys'. simpl. by rewrite Hs.
Qed.

(** C3: a dead slot is repaired once, and the replacement is reused.
    When the slot chosen for an accepted connection is empty or holds a
    closed session and [createSession] succeeds, exactly one new session [s]
    comes into existence, it is written into that slot, and the forwarder
    of the connection is started with [s].  From then on, through any
    further loop steps and deaths of other sessions (no [StopProxy], [s]
    itself does not die, the counter does not wrap), the loop does not
    panic, the slot still holds [s], and every connection given that slot
    is forwarded on [s]. *)
Theorem dead_slot_repaired_once_then_reused N sys rr conn slot r :
  run_ok N (sys_state sys) ->
  sys_loop sys = LLocking rr conn ->
  0 <= rr < max_int ->
  proxySessions (sys_state sys) !! Z.to_nat (rr mod Z.of_nat N) = Some slot ->
  slot_dead slot (world (sys_state sys)) = true ->
  let idx := Z.to_nat (rr mod Z.of_nat N) in
  let s := next_handle (world (sys_state sys)) in
  exists sys',
    sys_step (EvLoop r Established) sys = Some sys' /\
    (s ∉ sessions_all (world (sys_state sys))) /\
    sessions_all (world (sys_state sys')) = {[s]} ∪ sessions_all (world (sys_state sys)) /\
    s ∈ sessions_open (world (sys_state sys')) /\
    proxySessions (sys_state sys') = <[idx := Some s]> (proxySessions (sys_state sys)) /\
    forwarders (sys_state sys') = forwarders (sys_state sys) ++ [(conn, s)] /\
    sys_log sys' = sys_log sys ++ [mkDispatch conn (rr mod Z.of_nat N) (Some s)] /\
    forall evs,
      EvStop ∉ evs -> EvSessionDies s ∉ evs ->
      rr + 1 + Z.of_nat (length evs) <= max_int ->
      exists sys'' later,
        run evs sys' = Some sys'' /\
        proxySessions (sys_state sys'') !! idx = Some (Some s) /\
        s ∈ sessions_open (world (sys_state sys'')) /\
        sys_log sys'' = sys_log sys' ++ later /\
        Forall (fun d => d_slot d = rr mod Z.of_nat N -> d_session d = Some s) later.
Proof.
  destruct sys as [st pc log]. simpl. intros Hok -> Hrr Hslot Hdead.
  destruct (dispatch_running N st conn Established rr Hok ltac:(lia))
    as (slot' & config & Hslot' & Hcfg & Hidx & Hd).
  rewrite Hslot in Hslot'. injection Hslot' as <-.
  rewrite Hdead in Hd.
  destruct (createSession config Established (world st)) as [w' [s|e]] eqn:Hc;
    [|by destruct (createSession_inr _ _ _ _ _ Hc (ro_world _ _ Hok)) as [Hne _]].
  destruct (createSession_inl _ _ _ _ _ Hc (ro_world _ _ Hok))
    as (_ & -> & Hn & Hopen & Hall & Hl & Hco & Hk).
  assert (Hw : wrap_int (rr + 1) = rr + 1).
  { apply wrap_int_small. unfold min_int, int_bits. lia. }
  rewrite Hw in Hd.
  destruct (sys_step_effect N (mkSystem st (LLocking rr conn) log)
              (EvLoop r Established) rr Hok eq_refl ltac:(lia) ltac:(done))
    as (sys' & Hs & Hok' & _).
  unfold sys_step in Hs |- *. simpl in Hs |- *. rewrite Hd in Hs |- *.
  injection Hs as <-. simpl in Hok'.
  eexists. split; [done|]. simpl.
  assert (Hnew : proxySessions st !! Z.to_nat (rr mod Z.of_nat N) = Some slot ->
                 <[Z.to_nat (rr mod Z.of_nat N) := Some (next_handle (world st))]>
                   (proxySessions st) !! Z.to_nat (rr mod Z.of_nat N)
                 = Some (Some (next_handle (world st)))).
  { intros Hlk. apply list_lookup_insert_eq. by apply lookup_lt_Some in Hlk. }
  repeat apply conj; try done.
  - by apply world_ok_fresh_session, Hok.
  - rewrite Hopen. set_solver.
  - intros evs Hstop Hdies Hmax.
    match goal with
    | |- exists sys'' later, run evs ?sys1 = _ /\ _ =>
        assert (Hinv : reuse_inv N (Z.to_nat (rr mod Z.of_nat N))
                         (next_handle (world st)) (sys_log sys1) sys1)
    end.
    { split; simpl.
      - done.
      - exists (rr + 1). split; [done|lia].
      - by apply Hnew.
      - rewrite Hopen. set_solver.
      - exists []. split; [by rewrite app_nil_r|constructor]. }
    destruct (reuse_inv_run _ _ _ _ evs _ Hinv Hstop Hdies)
      as (sys'' & Hr & [_ _ Hslot'' Hopen'' (later & Hlog & Hlater)]).
    { unfold counter_of. simpl. lia. }
    exists sys'', later. repeat apply conj; try done.
    eapply Forall_impl; [exact Hlater|]. simpl. intros d Hd' Heq.
    apply Hd'. by rewrite Heq.
Qed.

Lemma dead_slot_repaired_once_then_reused_witness :
  exists sys' sys'',
    sys_step (EvLoop Accepted Established) before_repair = Some sys' /\
    proxySessions (sys_state sys') = [Some 1%nat; Some 6%nat; Some 3%nat] /\
    forwarders (sys_state sys') = [(4%nat, 1%nat); (5%nat, 6%nat)] /\
    run three_more sys' = Some sys'' /\
    proxySessions (sys_state sys'') = [Some 1%nat; Some 6%nat; Some 3%nat] /\
    map d_slot (sys_log sys'') = [0; 1; 2; 0; 1] /\
    map d_session (sys_log sys'')
    = [Some 1%nat; Some 6%nat; Some 3%nat; Some 1%nat; Some 6%nat].
Proof.
  destruct (dead_slot_repaired_once_then_reused
              3 before_repair 1 5%nat (Some 2%nat) Accepted
              run_ok_before_repair eq_refl)
    as (sys' & Hs & _ & _ & _ & Hpool & Hfw & _ & Hreuse);
    [by vm_compute|reflexivity|by vm_compute|].
  destruct (Hreuse three_more) as (sys'' & later & Hr & _);
    [no_stop|no_stop|by vm_compute|].
  exists sys', sys''. split; [exact Hs|].
  vm_compute in Hs. injection Hs as <-.
  vm_compute in Hr. injection Hr as <-.
  repeat split; reflexivity.
Defined.

(** ** StopProxy *)

Lemma world_ok_close_all pool :
  forall w, world_ok w -> world_ok (close_all pool w).
Proof.
  unfold close_all. induction pool as [|[s|] pool IH]; intros w Hok; simpl; auto.
  apply IH. by apply world_ok_close_session.
Qed.

Lemma close_all_spec pool :
  forall w,
    listeners (close_all pool w) = listeners w /\
    forall h, h ∈ sessions_open (close_all pool w) <->
              h ∈ sessions_open w /\ Some h ∉ pool.
Proof.
  unfold close_all. induction pool as [|[s|] pool IH]; intros w; simpl.
  - split; [done|]. intros h. set_solver.
  - destruct (IH (close_session s w)) as [Hl Ho]. split; [done|].
    intros h. rewrite Ho. simpl. rewrite not_elem_of_cons. set_solver.
  - destruct (IH w) as [Hl Ho]. split; [done|].
    intros h. rewrite Ho. rewrite not_elem_of_cons. naive_solver.
Qed.

Lemma state_ok_StartProxy configJson ext st :
  state_ok st -> state_ok (StartProxy configJson ext st).1.
Proof.
  intros Hst. pose proof Hst as [Hw Hch]. unfold StartProxy.
  destruct (proxyRunning st) eqn:Hrun; [exact Hst|].
  destruct (json_Unmarshal ext configJson) as [c|e]; [|exact Hst].
  destruct (validateConfig _); [exact Hst|].
  destruct (net_Listen ext _); [by split|].
  destruct (populate _ _ _ _ _ _) as [[w pool] err] eqn:Hp.
  apply populate_spec in Hp as (Hok' & _);
    [|by apply world_ok_bind_listener|rewrite length_replicate; simpl; lia].
  destruct err; split; simpl; try done.
  by apply world_ok_close_listener.
Qed.

Lemma state_ok_StopProxy st st' :
  state_ok st -> StopProxy st = Some st' -> state_ok st'.
Proof.
  intros Hst. pose proof Hst as [Hw Hch]. unfold StopProxy.
  destruct (proxyRunning st); simpl; [|by intros [= <-]].
  destruct (close_chan (stopChan st)); [|done]. intros [= <-].
  split; simpl; [|done].
  apply world_ok_close_all. destruct (proxyListener st); [|done].
  by apply world_ok_close_listener.
Qed.

Lemma state_ok_set_world st w :
  state_ok st -> world_ok w -> state_ok (set_world w st).
Proof. intros [_ Hch] Hw. by split. Qed.

Lemma state_ok_dispatch conn o rr st st' pc d :
  state_ok st -> dispatch conn o rr st = Some (st', pc, d) -> state_ok st'.
Proof.
  intros Hst. pose proof (so_world _ Hst) as Hw. unfold dispatch.
  destruct (negb (proxyRunning st)).
  { intros [= <- _ _]. apply state_ok_set_world; [done|].
    by apply world_ok_close_conn. }
  destruct (_ =? 0); [done|]. destruct (_ <? 0); [done|].
  destruct (proxySessions st !! _) as [slot|]; [|done].
  destruct (slot_dead slot (world st)).
  - destruct (proxyConfig st) as [config|]; [|done].
    pose proof (world_ok_createSession config o (world st) Hw) as Hw1.
    destruct (createSession config o (world st)) as [w' [s|e]]; simpl in Hw1;
      intros [= <- _ _].
    + destruct Hst as [_ Hch]. by split.
    + apply state_ok_set_world; [done|]. by apply world_ok_close_conn.
  - destruct slot; [|done]. intros [= <- _ _]. destruct Hst. by split.
Qed.

Lemma state_ok_loop_step r o pc st st' pc' d :
  state_ok st -> loop_step r o pc st = Some (st', pc', d) -> state_ok st'.
Proof.
  intros Hst. destruct pc as [rr|rr|rr l|rr conn|]; simpl.
  - destruct (stopChan st); by intros [= <- _ _].
  - destruct (proxyListener st); [|done]. by intros [= <- _ _].
  - destruct r; [destruct (decide _)|]; try (destruct (stopChan st); by intros [= <- _ _]).
    intros [= <- _ _]. apply state_ok_set_world; [done|].
    apply world_ok_accept_conn, Hst.
  - apply state_ok_dispatch, Hst.
  - by intros [= <- _ _].
Qed.

Lemma reachable_state_ok st : reachable st -> state_ok st.
Proof.
  induction 1 as [|st configJson ext _ IH|st st' _ IH Hs
                  |st r o pc st' pc' d _ IH Hs|st s _ IH].
  - split; [apply world_ok_empty|done].
  - by apply state_ok_StartProxy.
  - by eapply state_ok_StopProxy.
  - by eapply state_ok_loop_step.
  - apply state_ok_set_world; [done|]. apply world_ok_close_session, IH.
Qed.

Lemma covers_StartProxy configJson ext st st' :
  StartProxy configJson ext st = (st', "") ->
  world_ok (world st) ->
  covers (next_handle (world st)) st'.
Proof.
  intros Hs Hok h Hge Hopen.
  destruct (StartProxy_success _ _ _ _ Hs Hok)
    as (c & _ & _ & _ & _ & _ & _ & _ & _ & _ & Hok' & _ & Hall & _).
  destruct (Hall h) as [Hold|Hpool]; [by apply Hok'| |done].
  destruct Hok as [Hlt _]. specialize (Hlt h).
  assert (h < next_handle (world st))%nat; [|lia].
  apply Hlt. set_solver.
Qed.

Lemma covers_step N n0 ev sys sys' :
  step_effect N ev sys sys' ->
  covers n0 (sys_state sys) -> covers n0 (sys_state sys').
Proof.
  intros Heff Hcov h Hge Hopen.
  destruct Heff as [_ _ Hp _ _ Ho
                   |rr conn s _ _ _ Hst _ _
                   |rr conn slot r w' _ _ Hslot Hdead s _ _ Ho _ Hst _ _
                   |rr conn slot r o w' _ _ _ _ _ _ Ho _ _ _ Hst _ _].
  - rewrite Hp. apply Hcov; [done|].
    destruct Ho as [<-|(s & _ & Ho)]; [done|]. rewrite Ho in Hopen. set_solver.
  - rewrite Hst in Hopen |- *. by apply Hcov.
  - rewrite Hst in Hopen |- *. simpl in Hopen |- *. rewrite Ho in Hopen.
    apply lookup_lt_Some in Hslot as Hlt.
    apply elem_of_union in Hopen as [Hnew|Hold].
    + apply elem_of_singleton in Hnew as ->.
      eexists. by apply list_lookup_insert_eq.
    + destruct (Hcov h Hge Hold) as [j Hj]. exists j.
      rewrite list_lookup_insert_ne; [done|]. intros <-.
      rewrite Hslot in Hj. injection Hj as ->.
      simpl in Hdead. unfold IsClosed in Hdead.
      by apply bool_decide_eq_true in Hdead.
  - rewrite Hst in Hopen |- *. simpl in Hopen |- *. rewrite Ho in Hopen.
    by apply Hcov.
Qed.

Lemma covers_run N n0 evs :
  forall sys,
    rr_inv N sys -> covers n0 (sys_state sys) ->
    EvStop ∉ evs ->
    Z.of_nat (length (sys_log sys) + length evs) <= max_int ->
    forall sys', run evs sys = Some sys' ->
                 run_ok N (sys_state sys') /\ covers n0 (sys_state sys').
Proof.
  induction evs as [|ev evs IH]; intros sys Hinv Hcov Hstop Hmax sys' Hr.
  - injection Hr as <-. split; [apply Hinv|done].
  - simpl in Hmax, Hr.
    assert (Hev : ev <> EvStop) by (intros ->; apply Hstop; left).
    destruct (rr_inv_step N sys ev Hinv Hev ltac:(lia)) as (sys1 & Hs & Hinv1 & Hlen1).
    destruct (sys_step_effect N sys ev _ (rr_run _ _ Hinv) (rr_counter _ _ Hinv)
                ltac:(lia) Hev) as (sys1' & Hs' & _ & Heff).
    rewrite Hs in Hs'. injection Hs' as <-. rewrite Hs in Hr.
    apply (IH sys1 Hinv1); try done.
    + by eapply covers_step.
    + intros Hin. apply Hstop. by right.
    + lia.
Qed.

Lemma dispatch_listener conn o rr st st' pc d :
  dispatch conn o rr st = Some (st', pc, d) ->
  proxyListener st' = proxyListener st.
Proof.
  unfold dispatch.
  destruct (negb (proxyRunning st)); [by intros [= <- _ _]|].
  destruct (_ =? 0); [done|]. destruct (_ <? 0); [done|].
  destruct (proxySessions st !! _) as [slot|]; [|done].
  destruct (slot_dead slot (world st)).
  - destruct (proxyConfig st) as [config|]; [|done].
    destruct (createSession config o (world st)) as [w' [s|e]];
      by intros [= <- _ _].
  - destruct slot; [|done]. by intros [= <- _ _].
Qed.

Lemma sys_step_listener ev sys sys' :
  ev <> EvStop -> sys_step ev sys = Some sys' ->
  proxyListener (sys_state sys') = proxyListener (sys_state sys).
Proof.
  intros Hev. destruct sys as [st pc log]. destruct ev as [r o|s|]; [| |done]; simpl.
  - destruct (loop_step r o pc st) as [[[st' pc'] d]|] eqn:Hs; [|done].
    intros [= <-]. simpl.
    destruct pc as [rr|rr|rr l|rr conn|]; simpl in Hs.
    + destruct (stopChan st); by injection Hs as <- _ _.
    + destruct (proxyListener st) eqn:Hl; [|done]. by injection Hs as <- _ _.
    + destruct r; [destruct (decide _)|];
        try (destruct (stopChan st); by injection Hs as <- _ _).
    + by eapply dispatch_listener.
    + by injection Hs as <- _ _.
  - by intros [= <-].
Qed.

Lemma run_listener evs :
  forall sys sys',
    EvStop ∉ evs -> run evs sys = Some sys' ->
    proxyListener (sys_state sys') = proxyListener (sys_state sys).
Proof.
  induction evs as [|ev evs IH]; intros sys sys' Hstop Hr; simpl in Hr.
  - by injection Hr as <-.
  - destruct (sys_step ev sys) as [sys1|] eqn:Hs; [|done].
    rewrite (IH sys1 sys'); [|intros Hin; apply Hstop; by right|done].
    apply (sys_step_listener ev); [|done]. intros ->. apply Hstop. left.
Qed.

Lemma StopProxy_running N st :
  run_ok N st ->
  exists st',
    StopProxy st = Some st' /\
    IsRunning st' = false /\
    proxyListener st' = None /\ proxySessions st' = [] /\ stopChan st' = ChanClosed /\
    (forall l, proxyListener st = Some l -> l ∉ listeners (world st')) /\
    (forall h, h ∈ sessions_open (world st') <->
               h ∈ sessions_open (world st) /\ Some h ∉ proxySessions st).
Proof.
  intros [Hrun Hch _ (l & Hl & _) _ _ _]. unfold StopProxy.
  rewrite Hrun, Hch, Hl. simpl. eexists. split; [done|]. simpl.
  destruct (close_all_spec (proxySessions st) (close_listener l (world st))) as [Hls Ho].
  split; [done|]. split; [done|]. split; [done|]. split; [done|].
  split; [|apply Ho].
  intros l' [= <-]. rewrite Hls. simpl. set_solver.
Qed.

(** C7: stopping.  In every state the package can reach, [StopProxy]
    returns (it does not panic on the stop channel) and [IsRunning()] is
    false afterwards.  Called on a stopped proxy it changes nothing.
    Called after a successful [StartProxy] and any activity of the accept
    loop and of the sessions since, it closes the listener bound by that
    start and leaves no session open that was created since that start,
    at start-up or by a later repair. *)
Theorem StopProxy_stops :
  (forall st, reachable st ->
              exists st', StopProxy st = Some st' /\ IsRunning st' = false) /\
  (forall st, proxyRunning st = false -> StopProxy st = Some st) /\
  (forall configJson ext st0 st1 evs sys2,
      reachable st0 ->
      StartProxy configJson ext st0 = (st1, "") ->
      EvStop ∉ evs -> Z.of_nat (length evs) <= max_int ->
      run evs (started st1) = Some sys2 ->
      exists st3,
        StopProxy (sys_state sys2) = Some st3 /\
        IsRunning st3 = false /\
        proxyListener st1 = Some (next_handle (world st0)) /\
        (next_handle (world st0) ∉ listeners (world st3)) /\
        (forall h, (next_handle (world st0) <= h)%nat ->
                   h ∉ sessions_open (world st3)) /\
        proxySessions st3 = [] /\ proxyListener st3 = None).
Proof.
  repeat apply conj.
  - intros st Hreach. apply reachable_state_ok in Hreach as [_ Hch].
    unfold StopProxy, IsRunning.
    destruct (proxyRunning st) eqn:Hrun; simpl; [|by exists st].
    rewrite (Hch eq_refl). simpl. by eexists.
  - intros st Hrun. unfold StopProxy. by rewrite Hrun.
  - intros configJson ext st0 st1 evs sys2 Hreach Hs Hstop Hmax Hr.
    apply reachable_state_ok in Hreach as [Hw0 _].
    pose proof (StartProxy_run_ok _ _ _ _ Hs Hw0) as Hok1.
    pose proof (covers_StartProxy _ _ _ _ Hs Hw0) as Hcov1.
    destruct (StartProxy_success _ _ _ _ Hs Hw0)
      as (c & _ & _ & _ & _ & _ & Hl1 & _).
    destruct (covers_run _ (next_handle (world st0)) evs (started st1)
                ltac:(by split) Hcov1 Hstop ltac:(simpl; lia) sys2 Hr)
      as [Hok2 Hcov2].
    destruct (StopProxy_running _ _ Hok2)
      as (st3 & Hs3 & Hrun3 & Hl3 & Hp3 & _ & Hls3 & Ho3).
    exists st3. repeat apply conj; try done.
    + apply Hls3. by rewrite (run_listener evs (started st1) sys2 Hstop Hr).
    + intros h Hge Hopen. apply Ho3 in Hopen as [Hopen Hnot].
      destruct (Hcov2 h Hge Hopen) as [j Hj]. apply Hnot.
      by eapply list_elem_of_lookup_2.
Qed.

Lemma StopProxy_stops_witness :
  exists stopped,
    StopProxy (sys_state after_seven) = Some stopped /\
    IsRunning stopped = false /\
    (0%nat ∉ listeners (world stopped)) /\
    (forall h, (0 <= h)%nat -> h ∉ sessions_open (world stopped)) /\
    StopProxy stopped = Some stopped.
Proof.
  destruct StopProxy_stops as (_ & Hnoop & Hstop).
  destruct (Hstop (json_pool "3") ext_ok initState st3 seven_dispatches after_seven
              reach_init eq_refl)
    as (stopped & Hs & Hrun & _ & Hl & Hopen & _); [no_stop|by vm_compute|by vm_compute|].
  exists stopped.
  exact (conj Hs (conj Hrun (conj Hl (conj Hopen (Hnoop stopped Hrun))))).
Defined.

(** ** A loop that outlives its run *)

Lemma close_all_next_handle pool :
  forall w, next_handle (close_all pool w) = next_handle w.
Proof.
  unfold close_all. induction pool as [|[s|] pool IH]; intros w; simpl;
    [done| |]; by rewrite IH.
Qed.

Lemma StopProxy_keeps st st' :
  StopProxy st = Some st' ->
  next_handle (world st') = next_handle (world st) /\
  acceptLoops st' = acceptLoops st.
Proof.
  unfold StopProxy. destruct (proxyRunning st); simpl; [|by intros [= <-]].
  destruct (close_chan (stopChan st)); [|done]. intros [= <-]. simpl.
  rewrite close_all_next_handle. by destruct (proxyListener st).
Qed.

Lemma StartProxy_listeners configJson ext st st' :
  StartProxy configJson ext st = (st', "") -> world_ok (world st) ->
  listeners (world st') = {[next_handle (world st)]} ∪ listeners (world st).
Proof.
  unfold StartProxy. intros Hs Hok.
  destruct (proxyRunning st); [discriminate|].
  destruct (json_Unmarshal ext configJson) as [c|e]; [|discriminate].
  destruct (validateConfig _); [discriminate|].
  destruct (net_Listen ext _); [discriminate|].
  destruct (populate _ _ _ _ _ _) as [[w pool] [e|]] eqn:Hp; [discriminate|].
  injection Hs as <-. simpl.
  apply populate_spec in Hp as (_ & _ & Hl & _);
    [|by apply world_ok_bind_listener|rewrite length_replicate; simpl; lia].
  by rewrite Hl.
Qed.

Lemma view_put old t sys : view old (put old t sys) = sys.
Proof. by destruct old, sys. Qed.

Lemma put_put old t s1 s2 : put old (put old t s1) s2 = put old t s2.
Proof. by destruct old. Qed.

Lemma put_view old t : put old t (view old t) = t.
Proof. by destruct old, t. Qed.

(** Steps of one loop alone, seen among the two. *)
Lemma run_two_one_loop old evs :
  forall t sys',
    run evs (view old t) = Some sys' ->
    run_two (map (pair old) evs) t = Some (put old t sys').
Proof.
  induction evs as [|ev evs IH]; intros t sys' Hr; simpl in *.
  - injection Hr as <-. by rewrite put_view.
  - unfold step_two. simpl.
    destruct (sys_step ev (view old t)) as [s1|] eqn:Hs; [|done].
    rewrite (IH (put old t s1) sys'); [by rewrite put_put|by rewrite view_put].
Qed.

Lemma run_two_app a b t :
  run_two (a ++ b) t
  = match run_two a t with
    | Some t' => run_two b t'
    | None => None
    end.
Proof.
  revert t. induction a as [|x a IH]; intros t; simpl; [done|].
  destruct (step_two x t); [apply IH|done].
Qed.

(** Three slots taken alternately from a counter at [rr] and a counter at
    0 are no stretch of a round robin over two slots or more, wherever the
    count starts. *)
Lemma two_counters_not_round_robin (M rr c : Z) :
  2 <= M ->
  [rr mod M; 0; (rr + 1) mod M] <> [c mod M; (c + 1) mod M; (c + 2) mod M].
Proof.
  intros HM [= H1 H2 H3].
  assert (Ha : (rr + 1) mod M = (c + 1) mod M)
    by (by rewrite <- (Zplus_mod_idemp_l rr), H1, Zplus_mod_idemp_l).
  assert (Hb : (c + 2) mod M = 1).
  { replace (c + 2) with ((c + 1) + 1) by lia.
    rewrite <- Zplus_mod_idemp_l, <- H2. simpl. apply Z.mod_small. lia. }
  lia.
Qed.

(** C2: round robin in accept order fails when a loop outlives its run.
    Take a running proxy whose accept loop has counted [rr] connections and
    is inside [Accept] on the listener [l].  [StopProxy] and then a
    successful [StartProxy] run before that loop takes its next step.  Its
    [Accept] then fails, but [stopChan] is the new, open channel and
    [proxyRunning] is true again: the loop does not return.  It goes on
    with its own counter on the new listener, beside the loop of the new
    run, which counts from 0.  When the old loop takes the first connection
    of the new run, the new loop the second and the old loop the third, the
    three connections, dispatched in the order they were accepted, get the
    slots [rr mod M], 0, [(rr + 1) mod M] of the new pool of [M] slots: for
    [M >= 2] these are not three consecutive values of a count modulo [M],
    from whatever number the count starts.  Neither loop panics or returns
    and the proxy is running throughout. *)
Theorem stale_loop_breaks_round_robin N st rr l configJson ext st1 st2 o :
  run_ok N st ->
  proxyListener st = Some l ->
  0 <= rr -> rr + 2 <= max_int ->
  StopProxy st = Some st1 ->
  StartProxy configJson ext st1 = (st2, "") ->
  let M := Z.of_nat (length (proxySessions st2)) in
  exists t da db dc,
    run_two (after_restart o) (mkLoops st2 (LBlocked rr l) (LSelect 0) []) = Some t /\
    lp_log t = [da; db; dc] /\
    map d_slot (lp_log t) = [rr mod M; 0; (rr + 1) mod M] /\
    d_conn da = next_handle (world st2) /\
    lp_old t = LSelect (rr + 2) /\ lp_new t = LSelect 1 /\
    IsRunning (lp_state t) = true /\
    acceptLoops st2 = S (acceptLoops st) /\
    (2 <= M ->
     forall c, map d_slot (lp_log t) <> [c mod M; (c + 1) mod M; (c + 2) mod M]).
Proof.
  intros Hok Hl Hrr Hmax Hstop Hstart M.
  destruct (StopProxy_running N st Hok)
    as (st1' & Hs' & _ & _ & _ & _ & Hclosed & _).
  rewrite Hstop in Hs'. injection Hs' as <-.
  destruct (StopProxy_keeps _ _ Hstop) as [Hnext Hloops].
  assert (Hok1 : world_ok (world st1)).
  { apply (so_world st1), (state_ok_StopProxy st); [|done].
    split; [apply Hok|]. intros _. apply Hok. }
  pose proof (StartProxy_run_ok _ _ _ _ Hstart Hok1) as Hok2.
  destruct (StartProxy_success _ _ _ _ Hstart Hok1)
    as (c0 & _ & _ & _ & _ & _ & _ & _ & _ & _ & _ & _ & _ & _ & Hgo & _).
  assert (Hnl : l ∉ listeners (world st2)).
  { rewrite (StartProxy_listeners _ _ _ _ Hstart Hok1).
    destruct (ro_listener _ _ Hok) as (l' & Hl' & Hin).
    rewrite Hl in Hl'. injection Hl' as <-.
    assert (Hlt : (l < next_handle (world st))%nat).
    { apply (handles_below _ (ro_world _ _ Hok)).
      by do 3 apply elem_of_union_l. }
    intros [Heq%elem_of_singleton|Hin']%elem_of_union.
    - rewrite Hnext in Heq. lia.
    - by apply (Hclosed l). }
  assert (H0 : run_two [(true, EvLoop Accepted o)]
                 (mkLoops st2 (LBlocked rr l) (LSelect 0) [])
               = Some (mkLoops st2 (LSelect rr) (LSelect 0) [])).
  { simpl. unfold step_two. simpl.
    destruct (decide (l ∈ listeners (world st2))); [done|].
    by rewrite (ro_chan _ _ Hok2). }
  destruct (iteration_dispatches _ st2 rr [] o Hok2 Hrr)
    as (sA & dA & HrA & HokA & HpcA & HlogA & HcA & HsA).
  pose proof (run_two_one_loop true (iteration o)
                (mkLoops st2 (LSelect rr) (LSelect 0) []) sA HrA) as HA.
  destruct (iteration_dispatches _ (sys_state sA) 0 (sys_log sA) o HokA)
    as (sB & dB & HrB & HokB & HpcB & HlogB & HcB & HsB); [done|].
  pose proof (run_two_one_loop false (iteration o)
                (mkLoops (sys_state sA) (sys_loop sA) (LSelect 0) (sys_log sA))
                sB HrB) as HB.
  assert (Hw1 : wrap_int (rr + 1) = rr + 1)
    by (apply wrap_int_small; unfold min_int, max_int, int_bits in *; lia).
  assert (Hw2 : wrap_int (rr + 1 + 1) = rr + 2).
  { rewrite wrap_int_small; [lia|]. unfold min_int, max_int, int_bits in *. lia. }
  rewrite Hw1 in HpcA.
  destruct (iteration_dispatches _ (sys_state sB) (rr + 1) (sys_log sB) o HokB)
    as (sC & dC & HrC & HokC & HpcC & HlogC & HcC & HsC); [lia|].
  pose proof (run_two_one_loop true (iteration o)
                (mkLoops (sys_state sB) (LSelect (rr + 1)) (sys_loop sB) (sys_log sB))
                sC HrC) as HC.
  assert (Hlog : sys_log sC = [dA; dB; dC]).
  { rewrite HlogC, HlogB, HlogA. done. }
  assert (Hslots : map d_slot (sys_log sC) = [rr mod M; 0; (rr + 1) mod M]).
  { rewrite Hlog. simpl. rewrite HsA, HsB, HsC. by rewrite Z.mod_0_l by (unfold M; pose proof (ro_pos _ _ Hok2); lia). }
  exists (mkLoops (sys_state sC) (sys_loop sC) (sys_loop sB) (sys_log sC)), dA, dB, dC.
  repeat apply conj; try done.
  - unfold after_restart. rewrite run_two_app, H0, run_two_app, HA. simpl put.
    rewrite run_two_app, HB. simpl put. rewrite HpcA, HC. done.
  - simpl. by rewrite HpcC, Hw2.
  - simpl. apply HokC.
  - by rewrite Hgo, Hloops.
  - intros HM c. simpl lp_log. rewrite Hslots. by apply two_counters_not_round_robin.
Qed.

Lemma run_ok_first_run : run_ok 3 (sys_state first_run).
Proof.
  apply (run_ok_run 3 one_dispatch_then_blocked st3 first_run run_ok_st3);
    [no_stop|by vm_compute|by vm_compute].
Qed.

Lemma stale_loop_breaks_round_robin_witness :
  sys_loop first_run = LBlocked 1 0 /\
  exists t,
    run_two (after_restart Established)
            (mkLoops second_run (LBlocked 1 0) (LSelect 0) []) = Some t /\
    map d_slot (lp_log t) = [1; 0; 2] /\
    map d_conn (lp_log t) = [9; 10; 11]%nat /\
    lp_old t = LSelect 3 /\ lp_new t = LSelect 1 /\
    IsRunning (lp_state t) = true.
Proof.
  split; [by vm_compute|].
  assert (Hstop : StopProxy (sys_state first_run) = Some stopped_mid_accept)
    by (vm_compute; reflexivity).
  assert (Hstart : StartProxy (json_pool "3") ext_ok stopped_mid_accept
                   = (second_run, ""))
    by (vm_compute; reflexivity).
  destruct (stale_loop_breaks_round_robin 3 (sys_state first_run) 1 0%nat
              (json_pool "3") ext_ok stopped_mid_accept second_run Established
              run_ok_first_run)
    as (t & da & db & dc & Hrun & _ & _ & _ & Hold & Hnew & Hr & _);
    [by vm_compute|lia|by vm_compute|exact Hstop|exact Hstart|].
  exists t. split; [exact Hrun|].
  vm_compute in Hrun. injection Hrun as <-. repeat split.
Defined.

(** ** The forwarder *)

Module ForwarderFacts.
Import Forwarder.
Import ForwarderSpec.

Lemma inv_init tcp : inv (init tcp).
Proof.
  split; simpl; try done; try (split; discriminate).
  intros _. repeat split; auto.
Qed.

(** Hypotheses whose premise is an equation between two different
    constructors say nothing; those whose premise is trivial are used. *)
Ltac prune_hyps :=
  repeat match goal with
         | H : ?a = ?a -> _ |- _ => specialize (H eq_refl)
         | H : ?a = ?b -> _ |- _ => assert (a <> b) as _ by discriminate; clear H
         | H : _ /\ _ |- _ => destruct H
         | H : _ <-> _ |- _ => destruct H
         | H : ?a = ?b \/ _ |- _ =>
             assert (a <> b) as _ by discriminate; destruct H as [H|H]; [discriminate H|]
         | H : false = true |- _ => discriminate H
         | H : true = false |- _ => discriminate H
         | H : ?x = true, H' : ?x = true -> _ |- _ => specialize (H' H)
         end.

Ltac inv_goal_tac :=
  intros; prune_hyps; subst; simpl in *;
  first [ discriminate
        | lia
        | congruence
        | by auto
        | repeat split; first [ discriminate | lia | congruence | by auto ]
        | repeat match goal with x : CopyPc |- _ => destruct x end;
          simpl in *; prune_hyps;
          repeat split; first [ discriminate | lia | congruence | by auto ]
        | repeat match goal with
                 | |- context [if ?b then _ else _] => destruct b
                 | H : context [if ?b then _ else _] |- _ => destruct b
                 end;
          simpl in *; prune_hyps;
          repeat split; first [ discriminate | lia | congruence | by auto ] ].

Ltac inv_step_tac :=
  match goal with
  | Hinv : inv _ |- _ => destruct Hinv
  end;
  simpl in *; prune_hyps;
  split; simpl; try (split; intros); inv_goal_tac.

Lemma inv_step a h h' : inv h -> step a h = Some h' -> inv h'.
Proof.
  intros Hinv Hs.
  destruct h as [tcp m d u w rc c o pc md mu].
  destruct a as [ok|fin|fin]; simpl in Hs.
  - unfold main_step in Hs; simpl in Hs.
    destruct m; try discriminate;
      [destruct ok| | |destruct w; [|discriminate]| |];
      injection Hs as <-; destruct o; inv_step_tac.
  - unfold down_step in Hs; simpl in Hs.
    destruct d; try discriminate;
      [destruct fin| |destruct w; [discriminate|]];
      simpl in Hs; injection Hs as <-; destruct m; destruct o; inv_step_tac.
  - unfold up_step in Hs; simpl in Hs.
    destruct u; try discriminate;
      [destruct fin| |destruct w; [discriminate|]];
      simpl in Hs; injection Hs as <-; destruct m; destruct o; inv_step_tac.
Qed.

Lemma inv_exec sched :
  forall h h', inv h -> exec sched h = Some h' -> inv h'.
Proof.
  induction sched as [|a sched IH]; intros h h' Hinv He; simpl in He.
  - by injection He as <-.
  - destruct (step a h) as [h1|] eqn:Hs; [|done].
    apply (IH h1); [|done]. by apply (inv_step a h).
Qed.

Lemma inv_reachable tcp sched h : exec sched (init tcp) = Some h -> inv h.
Proof. apply inv_exec, inv_init. Qed.

(** C5: half-close.  At any point of any schedule of one forwarder: when
    the stream-to-local copy has returned, the next step of its goroutine
    closes the read half of the local connection if it is a TCP connection
    (and touches nothing if it is not), and neither closes the connection
    nor the stream, nor moves the other goroutine; when the local-to-stream
    copy has returned, the next step of its goroutine closes the stream and
    leaves the local connection alone; the local connection is closed only
    when [handleClient] has returned, with both goroutines gone; and the
    read half is closed, or the stream is closed, only once the copy of the
    direction that closes it has returned. *)
Theorem handleClient_half_close tcp sched h :
  exec sched (init tcp) = Some h ->
  (down h = C_finish ->
   forall fin, exists h',
     step (ActDown fin) h = Some h' /\
     p1_read_closed h' = (if is_tcp h then true else p1_read_closed h) /\
     p1_closed h = false /\ p1_closed h' = false /\
     p2_closed h' = p2_closed h /\
     up h' = up h /\ main h' = main h /\ down h' = C_done) /\
  (up h = C_finish ->
   forall fin, exists h',
     step (ActUp fin) h = Some h' /\
     p2_closed h' = true /\
     p1_closed h = false /\ p1_closed h' = false /\
     p1_read_closed h' = p1_read_closed h /\
     down h' = down h /\ main h' = main h /\ up h' = C_done) /\
  (p1_closed h = true ->
   main h = M_returned /\
   (p2_opened h = true -> down h = C_exit /\ up h = C_exit)) /\
  (p1_read_closed h = true -> finished (down h) = true) /\
  (p2_closed h = true -> finished (up h) = true).
Proof.
  intros He. pose proof (inv_reachable _ _ _ He) as Hinv.
  assert (Hclosed : p1_closed h = true ->
                    main h = M_returned /\
                    (p2_opened h = true -> down h = C_exit /\ up h = C_exit)).
  { intros Hc. apply (inv_conn_closed _ Hinv) in Hc as Hm. split; [done|].
    apply (inv_waited _ Hinv). by rewrite Hm. }
  assert (Hopen : forall pc, pc <> C_exit -> pc <> C_idle ->
                             (down h = pc \/ up h = pc) -> p1_closed h = false).
  { intros pc Hne Hni Hpc. destruct (p1_closed h) eqn:Hc; [|done].
    destruct (Hclosed eq_refl) as [Hm Hex].
    destruct (p2_opened h) eqn:Ho.
    - destruct (Hex eq_refl) as [Hd Hu]. destruct Hpc; congruence.
    - destruct (inv_unopened _ Hinv Ho) as (Hd & Hu & _). destruct Hpc; congruence. }
  repeat apply conj.
  - intros Hd fin. unfold step, down_step. rewrite Hd. eexists. split; [done|].
    simpl. repeat apply conj; try done; by apply (Hopen C_finish); auto.
  - intros Hu fin. unfold step, up_step. rewrite Hu. eexists. split; [done|].
    simpl. repeat apply conj; try done; by apply (Hopen C_finish); auto.
  - apply Hclosed.
  - intros Hrc. by apply (inv_read_closed _ Hinv).
  - apply (inv_p2_closed _ Hinv).
Qed.


(** No deadlock: wherever a schedule has taken the forwarder, it can
    still return, as soon as the copies that are still running return. *)
(** The schedule is run by computation, the state being a record of
    variables. *)
Ltac returns_tac := eexists; split; [vm_compute; reflexivity|reflexivity].

Lemma handleClient_can_return tcp sched h :
  exec sched (init tcp) = Some h ->
  exists h', exec (completion h) h = Some h' /\ main h' = M_returned.
Proof.
  intros He. pose proof (inv_reachable _ _ _ He) as Hinv. clear He.
  destruct h as [t m d u w rc c o pc md mu].
  destruct Hinv as [Hwg Hun Hop Hdi Hui Hds Hus Hw _ _ _ _]. simpl in *.
  destruct o.
  - (* the stream was opened *)
    clear Hun. subst w.
    destruct m; simpl in *.
    + discriminate (Hop eq_refl).
    + rewrite (Hdi eq_refl), (Hui eq_refl). returns_tac.
    + rewrite (Hui eq_refl). specialize (Hds eq_refl eq_refl).
      destruct d; [exfalso; exact (Hds eq_refl)|..]; returns_tac.
    + specialize (Hds eq_refl eq_refl). specialize (Hus eq_refl eq_refl).
      destruct d; [exfalso; exact (Hds eq_refl)|..];
        (destruct u; [exfalso; exact (Hus eq_refl)|..]);
        returns_tac.
    + destruct (Hw eq_refl eq_refl) as [-> ->]. returns_tac.
    + destruct (Hw eq_refl eq_refl) as [-> ->]. returns_tac.
    + returns_tac.
  - (* OpenStream failed, or has not been called *)
    destruct (Hun eq_refl) as (-> & -> & _ & _ & Hm). subst w.
    destruct m; simpl in *; try (destruct Hm; discriminate);
      returns_tac.
Qed.


Lemma handleClient_half_close_witness :
  down after_remote_closed = C_finish /\
  exists h',
    step (ActDown true) after_remote_closed = Some h' /\
    p1_read_closed h' = true /\ p1_closed h' = false /\
    p2_closed h' = false /\ up h' = C_copy.
Proof.
  split; [reflexivity|].
  assert (He : exec remote_closed_first (init true) = Some after_remote_closed)
    by (vm_compute; reflexivity).
  destruct (handleClient_half_close true remote_closed_first after_remote_closed He)
    as (Hdown & _).
  destruct (Hdown eq_refl true) as (h' & Hs & Hrc & _ & Hc & Hpc & Hu & _).
  exists h'. repeat apply conj; assumption.
Defined.

End ForwarderFacts.


(** * Further properties of the code *)

(** ** applyDefaults, applyMode, validateConfig *)

Lemma default_int_spec v d :
  1 <= d ->
  1 <= default_int v d /\ (1 <= v -> default_int v d = v) /\
  (v <= 0 -> default_int v d = d) /\
  default_int (default_int v d) d = default_int v d.
Proof.
  intros Hd. unfold default_int.
  destruct (Z.leb_spec v 0) as [Hv|Hv].
  - destruct (Z.leb_spec d 0); repeat split; intros; lia.
  - destruct (Z.leb_spec v 0); repeat split; intros; lia.
Qed.

Lemma default_str_spec s d :
  d <> "" ->
  default_str s d <> "" /\ (s <> "" -> default_str s d = s) /\
  default_str (default_str s d) d = default_str s d.
Proof.
  intros Hd. unfold default_str.
  destruct (String.eqb_spec s "") as [->|Hs].
  - destruct (String.eqb_spec d ""); repeat split; intros; congruence.
  - destruct (String.eqb_spec s ""); repeat split; intros; congruence.
Qed.

(** X1: [applyDefaults] fills what is unset and keeps what is set.  After
    it every integer field it tests is at least 1, the local address and
    the mode are non-empty and [NoComp] is true; a field the caller had set
    (an integer >= 1, a non-empty string) is kept as given, and so are the
    remote address and [AckNodelay]; on the zero configuration the integer
    fields get 1, 1350, 128, 512, 10, 3, 1, 4194304, 2097152, 4096, 10 and
    4194304; applying it twice is applying it once. *)
Theorem applyDefaults_fills_and_keeps (c : Config) :
  Forall (fun f => 1 <= f (applyDefaults c) /\
                   (1 <= f c -> f (applyDefaults c) = f c)) int_fields /\
  LocalAddr (applyDefaults c) <> "" /\ Mode (applyDefaults c) <> "" /\
  (LocalAddr c <> "" -> LocalAddr (applyDefaults c) = LocalAddr c) /\
  (Mode c <> "" -> Mode (applyDefaults c) = Mode c) /\
  RemoteAddr (applyDefaults c) = RemoteAddr c /\
  AckNodelay (applyDefaults c) = AckNodelay c /\
  NoComp (applyDefaults c) = true /\
  map (fun f => f (applyDefaults zeroConfig)) int_fields
  = [1; 1350; 128; 512; 10; 3; 1; 4194304; 2097152; 4096; 10; 4194304] /\
  LocalAddr (applyDefaults zeroConfig) = "127.0.0.1:1080" /\
  Mode (applyDefaults zeroConfig) = "fast" /\
  applyDefaults (applyDefaults c) = applyDefaults c.
Proof.
  repeat apply conj; try reflexivity.
  - unfold int_fields. repeat constructor; simpl;
      try (apply default_int_spec; lia);
      intros Hv; by apply default_int_spec.
  - simpl. by apply default_str_spec.
  - simpl. by apply default_str_spec.
  - simpl. by apply default_str_spec.
  - simpl. by apply default_str_spec.
  - unfold applyDefaults. simpl. f_equal;
      first [ by apply default_str_spec | apply default_int_spec; lia ].
Qed.

Lemma applyDefaults_fills_and_keeps_witness :
  applyDefaults config_all_set
  = mkConfig "0.0.0.0:9000" "10.0.0.1:4000" "fast3" 4 1400 256 1024 20 6 true
             8388608 2 8388608 8192 4194304 15 9 9 9 9 true /\
  Conn (applyDefaults config_all_set) = 4 /\
  LocalAddr (applyDefaults config_all_set) = "0.0.0.0:9000".
Proof.
  destruct (applyDefaults_fills_and_keeps config_all_set)
    as (Hints & _ & _ & Hl & _).
  split; [reflexivity|]. split.
  - apply Forall_cons_1 in Hints as [[_ Hconn] _]. apply Hconn. simpl. lia.
  - apply Hl. discriminate.
Defined.

(** X2: [applyMode] writes the four tuning fields and nothing else, and
    what it writes depends on the mode alone: values the caller put in
    [NoDelay], [Interval], [Resend] and [NoCongestion] never survive.
    [Resend] is always 2 and [NoCongestion] always 1 afterwards, [NoDelay]
    is 0 or 1 and [Interval] one of 10, 20, 30, 40.  Applying it twice is
    applying it once. *)
Theorem applyMode_writes_tuning_only (c : Config) :
  tuning (applyMode c) = modeParams (Mode c) /\
  Resend (applyMode c) = 2 /\ NoCongestion (applyMode c) = 1 /\
  (NoDelay (applyMode c) = 0 \/ NoDelay (applyMode c) = 1) /\
  Interval (applyMode c) ∈ [10; 20; 30; 40] /\
  Forall (fun f => f (applyMode c) = f c) int_fields /\
  LocalAddr (applyMode c) = LocalAddr c /\ RemoteAddr (applyMode c) = RemoteAddr c /\
  Mode (applyMode c) = Mode c /\ AckNodelay (applyMode c) = AckNodelay c /\
  NoComp (applyMode c) = NoComp c /\
  applyMode (applyMode c) = applyMode c.
Proof.
  pose proof (applyMode_tuning c) as Ht.
  unfold applyMode in *. unfold tuning in Ht. simpl in Ht.
  assert (Hcases : modeParams (Mode c) = (0, 40, 2, 1) \/
                   modeParams (Mode c) = (0, 30, 2, 1) \/
                   modeParams (Mode c) = (1, 20, 2, 1) \/
                   modeParams (Mode c) = (1, 10, 2, 1)).
  { unfold modeParams. repeat (destruct (String.eqb _ _); [tauto|]). tauto. }
  destruct (modeParams (Mode c)) as [[[nd iv] rs] nc] eqn:Hm. simpl.
  rewrite Hm.
  repeat apply conj; try reflexivity.
  - destruct Hcases as [H|[H|[H|H]]]; by injection H.
  - destruct Hcases as [H|[H|[H|H]]]; by injection H.
  - destruct Hcases as [H|[H|[H|H]]]; injection H; auto.
  - destruct Hcases as [H|[H|[H|H]]]; injection H as -> -> -> ->; set_solver.
  - unfold int_fields. by repeat constructor.
Qed.

(** X3: what [validateConfig] can still reject once the defaults are in.
    The prepared configuration passes exactly when the remote address is
    non-empty and the smux version given is at most 2 (a version of 0 or
    less has become 1).  An empty remote address gives "remoteaddr is
    required" whatever the rest; otherwise a version above 2 gives
    "unsupported smux version: " followed by the version in decimal. *)
Theorem validateConfig_after_defaults (c : Config) :
  (validateConfig (applyMode (applyDefaults c)) = None <->
   RemoteAddr c <> "" /\ SmuxVer c <= maxSmuxVer) /\
  (RemoteAddr c = "" ->
   validateConfig (applyMode (applyDefaults c)) = Some "remoteaddr is required") /\
  (RemoteAddr c <> "" -> maxSmuxVer < SmuxVer c ->
   validateConfig (applyMode (applyDefaults c))
   = Some ("unsupported smux version: " +:+ fmt_d (SmuxVer c))).
Proof.
  pose proof (prepared_Conn c) as Hconn.
  assert (Hsv : SmuxVer (applyMode (applyDefaults c)) = default_int (SmuxVer c) 1).
  { unfold applyMode. by destruct (modeParams _) as [[[? ?] ?] ?]. }
  unfold validateConfig. rewrite applyMode_RemoteAddr, Hsv. simpl RemoteAddr.
  unfold default_int, maxSmuxVer.
  destruct (String.eqb_spec (RemoteAddr c) "") as [He|He].
  - repeat split; try done. by intros [? _].
  - destruct (Z.leb_spec (Conn (applyMode (applyDefaults c))) 0); [lia|].
    destruct (Z.leb_spec (SmuxVer c) 0).
    + simpl. repeat split; try done; lia.
    + destruct (Z.gtb_spec (SmuxVer c) 2); repeat split; try done; try lia.
Qed.

Lemma validateConfig_after_defaults_witness :
  validateConfig (applyMode (applyDefaults config_smux3))
  = Some "unsupported smux version: 3" /\
  validateConfig (applyMode (applyDefaults config_no_remote))
  = Some "remoteaddr is required" /\
  validateConfig (applyMode (applyDefaults (config_pool 3))) = None.
Proof.
  destruct (validateConfig_after_defaults config_smux3) as (_ & _ & H3).
  destruct (validateConfig_after_defaults config_no_remote) as (_ & Hr & _).
  destruct (validateConfig_after_defaults (config_pool 3)) as ([_ Hok] & _).
  repeat apply conj.
  - apply H3; [discriminate|reflexivity].
  - by apply Hr.
  - apply Hok. split; [discriminate|]. by vm_compute.
Defined.

(** ** createSession *)

(** X4: [createSession] leaves no half-made connection.  If it returns a
    session, the session is one handle that was not in use before, it is
    open, and it is the only session created; if it returns an error, the
    sessions are what they were.  Either way the open transport connections
    that no session owns are what they were: the connection dialled is
    handed to the session or closed again.  Listeners and accepted
    connections are never touched. *)
Theorem createSession_all_or_nothing config o w :
  world_ok w ->
  let r := createSession config o w in
  world_ok r.1 /\
  kcp_conns r.1 = kcp_conns w /\
  listeners r.1 = listeners w /\ conns_open r.1 = conns_open w /\
  match r.2 with
  | inl s =>
      o = Established /\ s = next_handle w /\ (s ∉ sessions_all w) /\
      sessions_all r.1 = {[s]} ∪ sessions_all w /\
      sessions_open r.1 = {[s]} ∪ sessions_open w /\
      session_opts r.1 !! s = Some (kcpOptions config, smuxConfig config)
  | inr e =>
      (o = DialFails e \/ o = VerifyFails e \/ o = ClientFails e) /\
      sessions_all r.1 = sessions_all w /\
      sessions_open r.1 = sessions_open w /\
      session_opts r.1 = session_opts w
  end.
Proof.
  intros Hok. cbv zeta.
  pose proof (world_ok_createSession config o w Hok) as Hok'.
  destruct (createSession config o w) as [w' [s|e]] eqn:Hc; simpl in *.
  - destruct (createSession_inl _ _ _ _ _ Hc Hok) as (-> & -> & Hn & Ho & Ha & Hl & Hco & Hk).
    repeat apply conj; try done.
    + by apply world_ok_fresh_session.
    + simpl in Hc. injection Hc as <-. simpl. apply lookup_insert_eq.
  - destruct (createSession_inr _ _ _ _ _ Hc Hok) as (Hne & Hn & Ho & Ha & Hl & Hco & Hk).
    repeat apply conj; try done.
    + destruct o; simpl in Hc; try discriminate; injection Hc as _ ->; auto.
    + destruct o; simpl in Hc; try discriminate; by injection Hc as <- _.
Qed.

Lemma createSession_all_or_nothing_witness :
  kcp_conns (createSession (config_pool 1) (ClientFails "EOF") (world st3)).1
  = kcp_conns (world st3) /\
  sessions_open (createSession (config_pool 1) (ClientFails "EOF") (world st3)).1
  = sessions_open (world st3) /\
  sessions_open (createSession (config_pool 1) Established (world st3)).1
  = {[4%nat]} ∪ sessions_open (world st3).
Proof.
  pose proof (ro_world _ _ run_ok_st3) as Hok.
  destruct (createSession_all_or_nothing (config_pool 1) (ClientFails "EOF") (world st3) Hok)
    as (_ & Hk & _ & _ & _ & _ & Ho & _).
  destruct (createSession_all_or_nothing (config_pool 1) Established (world st3) Hok)
    as (_ & _ & _ & _ & _ & _ & _ & _ & Ho' & _).
  exact (conj Hk (conj Ho Ho')).
Defined.

(** ** StartProxy: when it starts, and what a failure leaves *)







Lemma createSession_sessions_mono config o w :
  sessions_all w ⊆ sessions_all (createSession config o w).1.
Proof. destruct o; simpl; set_solver. Qed.

Lemma populate_sessions_mono config outcome n :
  forall i pool w,
    sessions_all w ⊆ sessions_all (populate config outcome n i pool w).1.1.
Proof.
  induction n as [|n IH]; intros i pool w; simpl; [done|].
  pose proof (createSession_sessions_mono config (outcome i) w) as Hm.
  destruct (createSession config (outcome i) w) as [w' [s|e]]; simpl in *; [|done].
  etrans; [exact Hm|apply IH].
Qed.

Lemma StartProxy_sessions_mono configJson ext st :
  sessions_all (world st) ⊆ sessions_all (world (StartProxy configJson ext st).1).
Proof.
  unfold StartProxy.
  destruct (proxyRunning st); [done|].
  destruct (json_Unmarshal ext configJson) as [c|e]; [|done].
  destruct (validateConfig _); [done|].
  destruct (net_Listen ext _); [done|].
  pose proof (populate_sessions_mono (applyMode (applyDefaults c)) (dial ext)
                (Z.to_nat (Conn (applyMode (applyDefaults c)))) 0
                (replicate (Z.to_nat (Conn (applyMode (applyDefaults c)))) None)
                (bind_listener (world st))) as Hm.
  destruct (populate _ _ _ _ _ _) as [[w pool] [e|]]; simpl in *; done.
Qed.

(** X7: the pool a successful start builds.  When [StartProxy] returns
    the empty string, the listener is the first fresh handle and is open,
    the pool has [Conn] slots (at least one), slot [j] holds the [j]-th
    handle after the listener's, no two slots hold the same session, every
    one of them is open and did not exist before, these are all the
    sessions that were created, the stop channel is open, exactly one
    accept loop was started and no forwarder. *)
Theorem StartProxy_builds_pool configJson ext st st' :
  world_ok (world st) ->
  StartProxy configJson ext st = (st', "") ->
  let l := next_handle (world st) in
  let N := length (proxySessions st') in
  proxyListener st' = Some l /\ l ∈ listeners (world st') /\
  (exists c, proxyConfig st' = Some (applyMode (applyDefaults c)) /\
             json_Unmarshal ext configJson = inl c /\
             N = Z.to_nat (Conn (applyMode (applyDefaults c)))) /\
  (1 <= N)%nat /\
  proxySessions st' = map (fun j => Some (S l + j)%nat) (seq 0 N) /\
  NoDup (proxySessions st') /\
  (forall j, (j < N)%nat ->
             (S l + j)%nat ∈ sessions_open (world st') /\
             ((S l + j)%nat ∉ sessions_all (world st))) /\
  (forall h, h ∈ sessions_all (world st') <->
             h ∈ sessions_all (world st) \/ (S l <= h < S l + N)%nat) /\
  stopChan st' = ChanOpen /\ IsRunning st' = true /\
  acceptLoops st' = S (acceptLoops st) /\ forwarders st' = forwarders st.
Proof.
  intros Hok Hs. cbv zeta.
  destruct (StartProxy_success _ _ _ _ Hs Hok)
    as (c & Hj & _ & Hrun & Hch & Hcfg & Hl & Hlin & Hlen & Hpos & Hok' & Hslots
        & Hall & Hopen & Hloops & Hfw).
  pose proof (StartProxy_sessions_mono configJson ext st) as Hmono.
  rewrite Hs in Hmono. simpl in Hmono.
  assert (Hpool : proxySessions st'
                  = map (fun j => Some (S (next_handle (world st)) + j)%nat)
                        (seq 0 (length (proxySessions st')))).
  { apply list_eq. intros j. rewrite list_lookup_fmap.
    destruct (decide (j < length (proxySessions st'))%nat) as [Hlt|Hge].
    - rewrite (proj1 (Hslots j Hlt)). by rewrite lookup_seq_lt.
    - rewrite lookup_ge_None_2 by lia. by rewrite lookup_seq_ge by lia. }
  split; [done|]. split; [done|]. split; [by exists c|]. split; [done|].
  split; [done|]. split.
  { rewrite Hpool. apply NoDup_fmap_2; [|apply NoDup_seq].
    intros x y [=]. lia. }
  split.
  { intros j Hlt. split; [by apply Hslots|].
    intros Hin. destruct Hok as [Hbelow _].
    assert (S (next_handle (world st)) + j < next_handle (world st))%nat; [|lia].
    apply Hbelow. set_solver. }
  split; [|done].
  intros h. split.
  - intros Hh. destruct (Hall h Hh) as [|[j Hj']]; [by left|right].
    apply lookup_lt_Some in Hj' as Hlt.
    rewrite (proj1 (Hslots j Hlt)) in Hj'. injection Hj' as <-. lia.
  - intros [Hold|Hnew]; [by apply Hmono|].
    replace h with (S (next_handle (world st)) + (h - S (next_handle (world st))))%nat by lia.
    apply Hok'. apply Hslots. lia.
Qed.

Lemma StartProxy_builds_pool_witness :
  proxyListener st3 = Some 0%nat /\
  proxySessions st3 = [Some 1%nat; Some 2%nat; Some 3%nat] /\
  NoDup (proxySessions st3) /\
  acceptLoops st3 = 1%nat.
Proof.
  destruct (StartProxy_builds_pool (json_pool "3") ext_ok initState st3
              world_ok_empty eq_refl)
    as (Hl & _ & _ & _ & Hpool & Hnd & _ & _ & _ & _ & Hloops & _).
  exact (conj Hl (conj Hpool (conj Hnd Hloops))).
Defined.

(** ** Sessions outside the pool *)

Lemma outsider_step N ev sys sys' s :
  step_effect N ev sys sys' ->
  world_ok (world (sys_state sys)) ->
  ev <> EvSessionDies s ->
  s ∈ sessions_open (world (sys_state sys)) ->
  (forall j, proxySessions (sys_state sys) !! j <> Some (Some s)) ->
  s ∈ sessions_open (world (sys_state sys')) /\
  (forall j, proxySessions (sys_state sys') !! j <> Some (Some s)).
Proof.
  intros Heff Hok Hev Hopen Hout.
  destruct Heff as [_ _ Hp _ _ Ho
                   |rr conn s0 _ _ _ Hst _ _
                   |rr conn slot r w' _ _ Hslot _ s1 _ _ Ho _ Hst _ _
                   |rr conn slot r o w' _ _ _ _ _ _ Ho _ _ _ Hst _ _].
  - rewrite Hp. split; [|done].
    destruct Ho as [->|(s' & -> & ->)]; [done|].
    apply elem_of_difference. split; [done|].
    intros Heq%elem_of_singleton. by subst s'.
  - by rewrite Hst.
  - rewrite Hst. simpl. rewrite Ho. split; [set_solver|].
    intros j. destruct (decide (j = Z.to_nat (rr mod Z.of_nat N))) as [->|Hne].
    + apply lookup_lt_Some in Hslot.
      rewrite list_lookup_insert_eq by done. intros [= Heq].
      pose proof (world_ok_open_lt _ _ Hok Hopen) as Hlt.
      unfold s1 in Heq. lia.
    + rewrite list_lookup_insert_ne by done. apply Hout.
  - rewrite Hst. simpl. by rewrite Ho.
Qed.

Lemma outsider_run N s evs :
  forall sys,
    rr_inv N sys ->
    s ∈ sessions_open (world (sys_state sys)) ->
    (forall j, proxySessions (sys_state sys) !! j <> Some (Some s)) ->
    EvStop ∉ evs -> EvSessionDies s ∉ evs ->
    Z.of_nat (length (sys_log sys) + length evs) <= max_int ->
    forall sys', run evs sys = Some sys' ->
                 run_ok N (sys_state sys') /\
                 s ∈ sessions_open (world (sys_state sys')) /\
                 (forall j, proxySessions (sys_state sys') !! j <> Some (Some s)).
Proof.
  induction evs as [|ev evs IH]; intros sys Hinv Hopen Hout Hstop Hdies Hmax sys' Hr.
  - injection Hr as <-. split; [apply Hinv|done].
  - simpl in Hmax, Hr.
    assert (Hev : ev <> EvStop) by (intros ->; apply Hstop; left).
    assert (Hev' : ev <> EvSessionDies s) by (intros ->; apply Hdies; left).
    destruct (rr_inv_step N sys ev Hinv Hev ltac:(lia)) as (sys1 & Hs & Hinv1 & Hlen1).
    destruct (sys_step_effect N sys ev _ (rr_run _ _ Hinv) (rr_counter _ _ Hinv)
                ltac:(lia) Hev) as (sys1' & Hs' & _ & Heff).
    rewrite Hs in Hs'. injection Hs' as <-. rewrite Hs in Hr.
    destruct (outsider_step N ev sys sys1 s Heff (ro_world _ _ (rr_run _ _ Hinv))
                Hev' Hopen Hout) as [Hopen1 Hout1].
    apply (IH sys1 Hinv1); try done.
    + intros Hin. apply Hstop. by right.
    + intros Hin. apply Hdies. by right.
    + lia.
Qed.

(** X8: a start/stop cycle closes only the sessions of its own pool.  A
    session that is open when [StartProxy] is called, such as one left
    behind by an earlier failed start, is never put into the pool, is not
    closed by any repair, and is still open after the [StopProxy] that ends
    the run, unless it died on its own in between. *)
Theorem sessions_outside_pool_survive configJson ext st st1 evs sys2 st3 s :
  world_ok (world st) ->
  s ∈ sessions_open (world st) ->
  StartProxy configJson ext st = (st1, "") ->
  EvStop ∉ evs -> EvSessionDies s ∉ evs ->
  Z.of_nat (length evs) <= max_int ->
  run evs (started st1) = Some sys2 ->
  StopProxy (sys_state sys2) = Some st3 ->
  (forall j, proxySessions (sys_state sys2) !! j <> Some (Some s)) /\
  s ∈ sessions_open (world st3) /\
  IsRunning st3 = false.
Proof.
  intros Hok Hopen Hs Hstop Hdies Hmax Hr Hs3.
  pose proof (StartProxy_run_ok _ _ _ _ Hs Hok) as Hok1.
  destruct (StartProxy_success _ _ _ _ Hs Hok)
    as (c & _ & _ & _ & _ & _ & _ & _ & _ & _ & _ & Hslots & _ & Hmono & _).
  pose proof (world_ok_open_lt _ _ Hok Hopen) as Hlt.
  destruct (outsider_run _ s evs (started st1) ltac:(by split)) with (sys' := sys2)
    as (Hok2 & Hopen2 & Hout2); try done.
  - by apply Hmono.
  - simpl. intros j Hj. apply lookup_lt_Some in Hj as Hjlt.
    rewrite (proj1 (Hslots j Hjlt)) in Hj. injection Hj as <-. lia.
  - destruct (StopProxy_running _ _ Hok2) as (st3' & Hs3' & Hrun3 & _ & _ & _ & _ & Ho3).
    rewrite Hs3 in Hs3'. injection Hs3' as <-.
    repeat apply conj; try done.
    apply Ho3. split; [done|]. intros Hin.
    apply list_elem_of_lookup_1 in Hin as [j Hj]. by apply (Hout2 j).
Qed.

Lemma sessions_outside_pool_survive_witness :
  1%nat ∈ sessions_open (world stopped_again) /\
  IsRunning stopped_again = false /\
  proxySessions (sys_state after_restart_run) = [Some 3%nat; Some 4%nat; Some 5%nat].
Proof.
  assert (Hok : world_ok (world leak_state)).
  { apply (state_ok_StartProxy (json_pool "2") ext_second_dial_fails initState).
    split; [apply world_ok_empty|done]. }
  assert (Hleak : 1%nat ∈ sessions_open (world leak_state)) by (by vm_compute).
  assert (Hstart : StartProxy (json_pool "3") ext_ok leak_state = (restarted, ""))
    by (by vm_compute).
  assert (Hstop : EvStop ∉ two_dispatches) by no_stop.
  assert (Hdies : EvSessionDies 1 ∉ two_dispatches) by no_stop.
  assert (Hmax : Z.of_nat (length two_dispatches) <= max_int) by (by vm_compute).
  assert (Hrun : run two_dispatches (started restarted) = Some after_restart_run)
    by (by vm_compute).
  assert (Hs3 : StopProxy (sys_state after_restart_run) = Some stopped_again)
    by (by vm_compute).
  destruct (sessions_outside_pool_survive
              (json_pool "3") ext_ok leak_state restarted two_dispatches
              after_restart_run stopped_again 1%nat
              Hok Hleak Hstart Hstop Hdies Hmax Hrun Hs3)
    as (_ & Hopen & Hstopped).
  split; [exact Hopen|]. split; [exact Hstopped|]. by vm_compute.
Defined.

(** ** The accept loop once the proxy is stopped *)




(** ** The pool while the proxy runs *)

(** X10: the pool is stable.  While the proxy runs the pool keeps its
    size, and a slot whose session is open is never rewritten: as long as
    that session does not die, it stays in its slot, stays open, and every
    connection given that slot is forwarded on it. *)
Theorem pool_is_stable N st evs sys' :
  run_ok N st ->
  EvStop ∉ evs ->
  Z.of_nat (length evs) <= max_int ->
  run evs (started st) = Some sys' ->
  length (proxySessions (sys_state sys')) = N /\
  forall idx s,
    proxySessions st !! idx = Some (Some s) ->
    s ∈ sessions_open (world st) ->
    EvSessionDies s ∉ evs ->
    proxySessions (sys_state sys') !! idx = Some (Some s) /\
    s ∈ sessions_open (world (sys_state sys')) /\
    Forall (fun d => Z.to_nat (d_slot d) = idx -> d_session d = Some s) (sys_log sys').
Proof.
  intros Hok Hstop Hmax Hr. split.
  - apply (ro_size _ _ (run_ok_run N evs st sys' Hok Hstop Hmax Hr)).
  - intros idx s Hslot Hopen Hdies.
    destruct (reuse_inv_run N idx s [] evs (started st)) as (sys1 & Hr1 & Hinv);
      try done.
    + split; simpl; try done.
      * exists 0. split; [done|lia].
      * exists []. split; [done|constructor].
    + rewrite Hr in Hr1. injection Hr1 as <-.
      destruct Hinv as [_ _ Hslot' Hopen' (later & Hlog & Hall)].
      simpl in Hlog. by rewrite Hlog.
Qed.

Lemma pool_is_stable_witness :
  length (proxySessions (sys_state after_seven)) = 3%nat /\
  proxySessions (sys_state after_seven) !! 2%nat = Some (Some 3%nat) /\
  proxySessions (sys_state after_seven) !! 1%nat = Some (Some 9%nat).
Proof.
  assert (Hstop : EvStop ∉ seven_dispatches) by no_stop.
  assert (Hmax : Z.of_nat (length seven_dispatches) <= max_int) by (by vm_compute).
  assert (Hrun : run seven_dispatches (started st3) = Some after_seven)
    by (by vm_compute).
  destruct (pool_is_stable 3 st3 seven_dispatches after_seven run_ok_st3 Hstop Hmax Hrun)
    as [Hlen Hkeep].
  destruct (Hkeep 2%nat 3%nat) as (Hslot & _); [reflexivity|by vm_compute|no_stop|].
  split; [exact Hlen|]. split; [exact Hslot|]. by vm_compute.
Defined.

(** ** The forwarder always can finish *)

(** X11: [handleClient] cannot get stuck.  From every state a schedule
    can reach there is a continuation that ends with [handleClient]
    returned: [wg.Done()] is never called on a zero counter, [wg.Wait()]
    is passed as soon as both goroutines are gone, and nothing else waits
    for anything but the two copies. *)
Theorem handleClient_never_stuck tcp sched h :
  Forwarder.exec sched (Forwarder.init tcp) = Some h ->
  exists h',
    Forwarder.exec (ForwarderSpec.completion h) h = Some h' /\
    Forwarder.main h' = Forwarder.M_returned /\
    Forwarder.p1_closed h' = true /\
    (Forwarder.p2_opened h' = true -> Forwarder.p2_closed h' = true).
Proof.
  intros He.
  destruct (ForwarderFacts.handleClient_can_return tcp sched h He) as (h' & He' & Hm).
  exists h'. split; [done|]. split; [done|].
  assert (Hinv : ForwarderSpec.inv h').
  { eapply ForwarderFacts.inv_exec; [|exact He'].
    by eapply ForwarderFacts.inv_reachable. }
  split.
  - by apply (ForwarderSpec.inv_conn_closed _ Hinv).
  - apply (ForwarderSpec.inv_stream_closed _ Hinv). by rewrite Hm.
Qed.

Lemma handleClient_never_stuck_witness :
  exists h',
    Forwarder.exec (ForwarderSpec.completion ForwarderSpec.after_remote_closed)
                   ForwarderSpec.after_remote_closed = Some h' /\
    Forwarder.main h' = Forwarder.M_returned.
Proof.
  assert (He : Forwarder.exec ForwarderSpec.remote_closed_first (Forwarder.init true)
               = Some ForwarderSpec.after_remote_closed) by (vm_compute; reflexivity).
  destruct (handleClient_never_stuck true ForwarderSpec.remote_closed_first
              ForwarderSpec.after_remote_closed He) as (h' & He' & Hm & _).
  exists h'. by split.
Defined.

(** * The single-session variant *)
Module SimpleFacts.
Import Simple.
Import SimpleSpec.

Lemma all_main_complete (m : MainPc) : In m all_main.
Proof. destruct m; simpl; tauto. Qed.

Lemma all_go_complete (pc : GoPc) : In pc all_go.
Proof. destruct pc; simpl; tauto. Qed.

Lemma all_bool_complete (b : bool) : In b all_bool.
Proof. destruct b; simpl; tauto. Qed.

Lemma all_act_complete (a : Act) : In a all_act.
Proof. destruct a as [[]|[]|[]]; simpl; tauto. Qed.

Lemma inv_chan_le (h : H) : inv h -> (errChan h <= 2)%nat.
Proof.
  unfold inv, invb. intros Hinv.
  apply andb_true_iff in Hinv as [_ Hn]. by apply Nat.leb_le in Hn.
Qed.

Ltac pick H x Hx :=
  rewrite forallb_forall in H; specialize (H x Hx); cbv beta in H.

Lemma holds_everywhere_sound (P : H -> bool) :
  holds_everywhere P = true -> forall h, inv h -> P h = true.
Proof.
  intros Hall h Hinv.
  pose proof (inv_chan_le h Hinv) as Hn.
  destruct h as [m d u n b1 b2 b3 b4 b5 b6 b7]. simpl in Hn.
  assert (Hin : In n [0; 1; 2]%nat) by (simpl; lia).
  unfold holds_everywhere in Hall.
  pick Hall m (all_main_complete m).
  pick Hall d (all_go_complete d).
  pick Hall u (all_go_complete u).
  pick Hall n Hin.
  pick Hall b1 (all_bool_complete b1).
  pick Hall b2 (all_bool_complete b2).
  pick Hall b3 (all_bool_complete b3).
  pick Hall b4 (all_bool_complete b4).
  pick Hall b5 (all_bool_complete b5).
  pick Hall b6 (all_bool_complete b6).
  pick Hall b7 (all_bool_complete b7).
  unfold inv in Hinv. rewrite Hinv in Hall. exact Hall.
Qed.

Lemma steps_keep_ok : holds_everywhere steps_keep = true.
Proof. vm_compute. reflexivity. Qed.

Lemma never_blocked_ok : holds_everywhere never_blocked = true.
Proof. vm_compute. reflexivity. Qed.

Lemma torn_down_ok : holds_everywhere torn_down = true.
Proof. vm_compute. reflexivity. Qed.

Lemma closes_ordered_ok : holds_everywhere closes_ordered = true.
Proof. vm_compute. reflexivity. Qed.

Lemma can_move_ok : holds_everywhere can_move = true.
Proof. vm_compute. reflexivity. Qed.

Lemma drains_ok : holds_everywhere drains = true.
Proof. vm_compute. reflexivity. Qed.

Lemma simple_inv_init : inv init.
Proof. reflexivity. Qed.

Lemma simple_inv_step (a : Act) (h h' : H) : inv h -> step a h = Some h' -> inv h'.
Proof.
  intros Hinv Hs.
  pose proof (holds_everywhere_sound _ steps_keep_ok h Hinv) as Hk.
  unfold steps_keep in Hk. pick Hk a (all_act_complete a).
  by rewrite Hs in Hk.
Qed.

Lemma simple_inv_exec (sched : list Act) :
  forall h h', inv h -> exec sched h = Some h' -> inv h'.
Proof.
  induction sched as [|a sched IH]; intros h h' Hinv He; simpl in He.
  - by injection He as <-.
  - destruct (step a h) as [h1|] eqn:Hs; [|done].
    eapply IH; [|exact He]. by eapply simple_inv_step.
Qed.

Lemma simple_inv_reachable (sched : list Act) (h : H) :
  exec sched init = Some h -> inv h.
Proof. apply simple_inv_exec, simple_inv_init. Qed.

(** X12 (Start, Stop): [Start] does not look at the listener it already
    holds.  Called a second time while the first listener [l0] is open, it
    binds a new listener and overwrites the variable; [Stop] then closes the
    new listener only, and [l0] stays bound however often [Stop] is called. *)
Theorem second_Start_strands_first_listener
    (st : State) (l0 : nat) (configJson : string)
    (unmarshal : string -> Config + string) (listen : string -> option string)
    (config : Config) :
  world_ok (sworld st) ->
  listener st = Some l0 -> l0 ∈ listeners (sworld st) ->
  unmarshal configJson = inl config -> listen (LocalAddr config) = None ->
  exists st1 l1,
    Start configJson unmarshal listen st = (st1, "") /\
    listener st1 = Some l1 /\ l1 <> l0 /\
    loops st1 = S (loops st) /\
    {[l0; l1]} ⊆ listeners (sworld st1) /\
    (l1 ∉ listeners (sworld (Stop st1))) /\
    l0 ∈ listeners (sworld (Stop st1)) /\
    l0 ∈ listeners (sworld (Stop (Stop st1))).
Proof.
  intros Hw Hl Hin Hu Hli.
  assert (Hlt : (l0 < next_handle (sworld st))%nat).
  { apply (handles_below _ Hw). set_solver. }
  unfold Start. rewrite Hu, Hli.
  eexists _, _. split; [reflexivity|].
  unfold Stop. simpl.
  repeat apply conj; try reflexivity; try lia; set_solver by lia.
Qed.

Lemma started_once_ok :
  world_ok (sworld started_once) /\
  listener started_once = Some 0%nat /\
  0%nat ∈ listeners (sworld started_once).
Proof.
  split; [|split; [reflexivity|]].
  - split; simpl; [|set_solver]. intros h Hh.
    assert (h = 0%nat) by set_solver. lia.
  - simpl. set_solver.
Qed.

Lemma second_Start_strands_first_listener_witness :
  exists st1 l1,
    Start "good" decode_simple listen_ok started_once = (st1, "") /\
    listener st1 = Some l1 /\ l1 <> 0%nat /\
    loops st1 = S (loops started_once) /\
    {[0%nat; l1]} ⊆ listeners (sworld st1) /\
    (l1 ∉ listeners (sworld (Stop st1))) /\
    0%nat ∈ listeners (sworld (Stop st1)) /\
    0%nat ∈ listeners (sworld (Stop (Stop st1))).
Proof.
  destruct started_once_ok as (Hw & Hl & Hin).
  exact (second_Start_strands_first_listener started_once 0%nat "good"
           decode_simple listen_ok sample_config Hw Hl Hin eq_refl eq_refl).
Defined.

(** X13 (Start, Stop): a [Start] whose [net.Listen] fails has already
    assigned the nil listener to the variable: the listener [l0] held before
    is forgotten, [Stop] does nothing and [l0] stays bound.  A [Start] whose
    JSON does not decode returns before the assignment, and [Stop] still
    closes [l0]. *)
Theorem failed_listen_forgets_listener
    (st : State) (l0 : nat) (configJson badJson : string)
    (unmarshal : string -> Config + string) (listen : string -> option string)
    (config : Config) (e e' : string) :
  listener st = Some l0 -> l0 ∈ listeners (sworld st) ->
  unmarshal configJson = inl config -> listen (LocalAddr config) = Some e ->
  unmarshal badJson = inr e' ->
  (exists st1,
     Start configJson unmarshal listen st = (st1, "Listen Error: " +:+ e) /\
     listener st1 = None /\ Stop st1 = st1 /\
     sworld st1 = sworld st /\ l0 ∈ listeners (sworld (Stop st1))) /\
  Start badJson unmarshal listen st = (st, "Config Error: " +:+ e') /\
  (l0 ∉ listeners (sworld (Stop (Start badJson unmarshal listen st).1))).
Proof.
  intros Hl Hin Hu Hli Hbad. unfold Start. rewrite Hu, Hli, Hbad. split.
  - eexists. split; [reflexivity|]. by simpl.
  - split; [reflexivity|]. unfold Stop. simpl. rewrite Hl. simpl. set_solver.
Qed.

Lemma failed_listen_forgets_listener_witness :
  (exists st1,
     Start "good" decode_simple listen_busy started_once
       = (st1, "Listen Error: " +:+ "address already in use") /\
     listener st1 = None /\ Stop st1 = st1 /\
     sworld st1 = sworld started_once /\
     0%nat ∈ listeners (sworld (Stop st1))) /\
  Start "bad" decode_simple listen_busy started_once
    = (started_once, "Config Error: " +:+ "invalid character") /\
  (0%nat ∉ listeners (sworld (Stop (Start "bad" decode_simple listen_busy
                                     started_once).1))).
Proof.
  destruct started_once_ok as (_ & Hl & Hin).
  exact (failed_listen_forgets_listener started_once 0%nat "good" "bad"
           decode_simple listen_busy sample_config
           "address already in use" "invalid character"
           Hl Hin eq_refl eq_refl eq_refl).
Defined.

(** X14 (handleClient of the single-session variant): when the function
    has returned, [p1] is closed and the transport connection, the session
    and the stream are closed exactly when they had been obtained; if the
    copies were started, at least one of them has sent its error, and if
    they were not, none runs. *)
Theorem handleClient_returns_after_first_copy (sched : list Act) (h : H) :
  exec sched init = Some h -> main h = S_returned ->
  p1_closed h = true /\ kcp_closed h = dialled h /\
  session_closed h = has_session h /\ p2_closed h = opened h /\
  (opened h = true -> down h = G_exit \/ up h = G_exit) /\
  (opened h = false -> down h = G_idle /\ up h = G_idle).
Proof.
  intros He Hm.
  pose proof (holds_everywhere_sound _ torn_down_ok h (simple_inv_reachable _ _ He)) as Ht.
  unfold torn_down in Ht. rewrite Hm in Ht.
  rewrite !andb_true_iff in Ht.
  destruct Ht as (((((H1 & H2) & H3) & H4) & H5) & H6).
  apply eqb_prop in H2, H3, H4.
  repeat apply conj; try assumption.
  - intros Ho. rewrite Ho in H5. simpl in H5.
    destruct (down h), (up h); simpl in H5; try discriminate; auto.
  - intros Ho. rewrite Ho in H6. simpl in H6.
    destruct (down h), (up h); simpl in H6; try discriminate; auto.
Qed.

Lemma handleClient_returns_after_first_copy_witness :
  exec down_first init = Some after_down_first /\
  up after_down_first = G_copy /\
  p1_closed after_down_first = true /\
  kcp_closed after_down_first = dialled after_down_first /\
  session_closed after_down_first = has_session after_down_first /\
  p2_closed after_down_first = opened after_down_first /\
  (opened after_down_first = true ->
   down after_down_first = G_exit \/ up after_down_first = G_exit) /\
  (opened after_down_first = false ->
   down after_down_first = G_idle /\ up after_down_first = G_idle).
Proof.
  assert (He : exec down_first init = Some after_down_first)
    by (vm_compute; reflexivity).
  split; [exact He|]. split; [reflexivity|].
  exact (handleClient_returns_after_first_copy down_first after_down_first
           He eq_refl).
Defined.

(** X15 (handleClient of the single-session variant): the deferred calls
    run in the reverse order of their registration, at every point of every
    schedule: nothing is closed before one copy has sent its error, the
    session is closed only after the stream, the transport connection only
    after the session, and [p1] last. *)
Theorem deferred_closes_in_order (sched : list Act) (h : H) :
  exec sched init = Some h ->
  (p2_closed h = true -> down h = G_exit \/ up h = G_exit) /\
  (session_closed h = true -> p2_closed h = opened h) /\
  (kcp_closed h = true -> session_closed h = has_session h) /\
  (p1_closed h = true -> kcp_closed h = dialled h).
Proof.
  intros He.
  pose proof (holds_everywhere_sound _ closes_ordered_ok h (simple_inv_reachable _ _ He)) as Ht.
  unfold closes_ordered in Ht. rewrite !andb_true_iff in Ht.
  destruct Ht as (((H1 & H2) & H3) & H4).
  repeat apply conj; intros Hc.
  - rewrite Hc in H4. simpl in H4.
    destruct (down h), (up h); simpl in H4; try discriminate; auto.
  - rewrite Hc in H3. by apply eqb_prop in H3.
  - rewrite Hc in H2. by apply eqb_prop in H2.
  - rewrite Hc in H1. by apply eqb_prop in H1.
Qed.

Lemma deferred_closes_in_order_witness :
  exec down_first init = Some after_down_first /\
  (p2_closed after_down_first = true ->
   down after_down_first = G_exit \/ up after_down_first = G_exit) /\
  (session_closed after_down_first = true ->
   p2_closed after_down_first = opened after_down_first) /\
  (kcp_closed after_down_first = true ->
   session_closed after_down_first = has_session after_down_first) /\
  (p1_closed after_down_first = true ->
   kcp_closed after_down_first = dialled after_down_first).
Proof.
  assert (He : exec down_first init = Some after_down_first)
    by (vm_compute; reflexivity).
  split; [exact He|].
  exact (deferred_closes_in_order down_first after_down_first He).
Defined.

(** X16 (handleClient of the single-session variant): the channel never
    holds more than its two places, so a copy that has ended is never
    blocked on its send; and while the function has not returned, some
    goroutine can take a step. *)
Theorem copies_never_block_on_send (sched : list Act) (h : H) :
  exec sched init = Some h ->
  (errChan h <= 2)%nat /\
  (forall fin, down h = G_send -> is_Some (step (ActDown fin) h)) /\
  (forall fin, up h = G_send -> is_Some (step (ActUp fin) h)) /\
  (main h <> S_returned -> exists a, is_Some (step a h)).
Proof.
  intros He. pose proof (simple_inv_reachable _ _ He) as Hinv.
  pose proof (holds_everywhere_sound _ never_blocked_ok h Hinv) as Hb.
  pose proof (holds_everywhere_sound _ can_move_ok h Hinv) as Hc.
  unfold never_blocked in Hb. apply andb_true_iff in Hb as [Hd Hu].
  split; [by apply inv_chan_le|]. repeat apply conj.
  - intros fin Hpc. rewrite Hpc in Hd. simpl in Hd.
    apply bool_decide_eq_true in Hd. unfold step. rewrite Hpc.
    simpl in *. destruct (errChan h <? 2)%nat; [by eexists|by destruct Hd].
  - intros fin Hpc. rewrite Hpc in Hu. simpl in Hu.
    apply bool_decide_eq_true in Hu. unfold step. rewrite Hpc.
    simpl in *. destruct (errChan h <? 2)%nat; [by eexists|by destruct Hu].
  - intros Hm. unfold can_move in Hc.
    assert (Hex : existsb (fun a => bool_decide (is_Some (step a h))) all_act = true).
    { destruct (main h); try exact Hc. by destruct Hm. }
    apply existsb_exists in Hex as (a & _ & Ha).
    exists a. by apply bool_decide_eq_true in Ha.
Qed.

Lemma copies_never_block_on_send_witness :
  exec down_first init = Some after_down_first /\
  (errChan after_down_first <= 2)%nat /\
  (forall fin, down after_down_first = G_send ->
               is_Some (step (ActDown fin) after_down_first)) /\
  (forall fin, up after_down_first = G_send ->
               is_Some (step (ActUp fin) after_down_first)) /\
  (main after_down_first <> S_returned ->
   exists a, is_Some (step a after_down_first)).
Proof.
  assert (He : exec down_first init = Some after_down_first)
    by (vm_compute; reflexivity).
  split; [exact He|].
  exact (copies_never_block_on_send down_first after_down_first He).
Defined.

(** X17 (handleClient of the single-session variant): only one value is
    ever received from the channel, yet no copy is left behind blocked: from
    every point of every schedule the copies that are still running can end
    and send their errors without a step of [handleClient] itself, after
    which each started copy has exited. *)
Theorem no_copy_is_left_behind (sched : list Act) (h : H) :
  exec sched init = Some h ->
  exists h',
    exec (drain h) h = Some h' /\ main h' = main h /\
    go_done (down h') = true /\ go_done (up h') = true.
Proof.
  intros He.
  pose proof (holds_everywhere_sound _ drains_ok h (simple_inv_reachable _ _ He)) as Hd.
  unfold drains in Hd. destruct (exec (drain h) h) as [h'|]; [|discriminate].
  rewrite !andb_true_iff in Hd. destruct Hd as ((H1 & H2) & H3).
  apply bool_decide_eq_true in H3. by exists h'.
Qed.

Lemma no_copy_is_left_behind_witness :
  exec down_first init = Some after_down_first /\
  drain after_down_first = [ActUp true; ActUp true] /\
  exists h',
    exec (drain after_down_first) after_down_first = Some h' /\
    main h' = main after_down_first /\
    go_done (down h') = true /\ go_done (up h') = true.
Proof.
  assert (He : exec down_first init = Some after_down_first)
    by (vm_compute; reflexivity).
  split; [exact He|]. split; [reflexivity|].
  exact (no_copy_is_left_behind down_first after_down_first He).
Defined.

End SimpleFacts.
